(** * Garman-Kohlhagen FX option pricer: a shallow embedding of
      [p5_fx_option.py] and the properties of its four functions.

    A Python exception is an explicit [Raise] result.  Calendar dates follow
    [datetime.date]: validated at construction, compared field by field,
    subtracted through their proleptic Gregorian ordinals.

    The functions are read twice.  The first reading takes the numbers as
    real numbers and serves the statements about dates, about the order of
    the computation and about exact arithmetic.  The second, in the module
    [Binary64], takes them as Python floats: every operation is the exact
    one rounded to a nearest binary64 number, results out of range become
    infinities, and [math.exp], [math.log] and [**] go through functions of
    the C library that are parameters. *)

From Stdlib Require Import ZArith Reals Lra Lia Bool Eqdep_dec.
From Stdlib Require Import IndefiniteDescription.
From Equations Require Import Equations.
From Equations.Prop Require Import Logic.

Local Open Scope Z_scope.

(** ** Results of Python calls *)

Inductive exn : Type :=
| ValueError
| ZeroDivisionError
| OverflowError.

Inductive result (A : Type) : Type :=
| Ok (a : A)
| Raise (e : exn).

Arguments Ok {A} a.
Arguments Raise {A} e.

Definition bind {A B : Type} (r : result A) (k : A -> result B) : result B :=
  match r with
  | Ok a => k a
  | Raise e => Raise e
  end.

Notation "x <- r ;; k" := (bind r (fun x => k))
  (at level 61, r at next level, right associativity).
Notation "' p <- r ;; k" := (bind r (fun x => let p := x in k))
  (at level 61, p pattern, r at next level, right associativity).

(** ** [datetime.date] *)

Module Calendar.

Definition MINYEAR : Z := 1.
Definition MAXYEAR : Z := 9999.

Definition is_leap (year : Z) : bool :=
  (year mod 4 =? 0) && (negb (year mod 100 =? 0) || (year mod 400 =? 0)).

(** The table [_DAYS_IN_MONTH]; index 0 holds the placeholder -1. *)
Definition DAYS_IN_MONTH (month : Z) : Z :=
  match month with
  | 1 => 31 | 2 => 28 | 3 => 31 | 4 => 30 | 5 => 31 | 6 => 30
  | 7 => 31 | 8 => 31 | 9 => 30 | 10 => 31 | 11 => 30 | 12 => 31
  | _ => -1
  end.

(** The table [_DAYS_BEFORE_MONTH], the running sum of [DAYS_IN_MONTH]. *)
Definition DAYS_BEFORE_MONTH (month : Z) : Z :=
  match month with
  | 1 => 0 | 2 => 31 | 3 => 59 | 4 => 90 | 5 => 120 | 6 => 151
  | 7 => 181 | 8 => 212 | 9 => 243 | 10 => 273 | 11 => 304 | 12 => 334
  | _ => -1
  end.

Definition days_before_year (year : Z) : Z :=
  let y := year - 1 in
  y * 365 + y / 4 - y / 100 + y / 400.

Definition days_in_month (year month : Z) : Z :=
  if (month =? 2) && is_leap year then 29 else DAYS_IN_MONTH month.

Definition days_before_month (year month : Z) : Z :=
  DAYS_BEFORE_MONTH month + (if (2 <? month) && is_leap year then 1 else 0).

Definition ymd2ord (year month day : Z) : Z :=
  days_before_year year + days_before_month year month + day.

(** [_check_date_fields]: [true] where the constructor accepts the fields,
    [false] where it raises [ValueError]. *)
Definition check_date_fields (year month day : Z) : bool :=
  (MINYEAR <=? year) && (year <=? MAXYEAR) &&
  (1 <=? month) && (month <=? 12) &&
  (1 <=? day) && (day <=? days_in_month year month).

(** A [date] object: three fields that passed the constructor's check. *)
Record date : Type := mkdate {
  year : Z;
  month : Z;
  day : Z;
  date_checked : check_date_fields year month day = true
}.

(** The constructor [date(year, month, day)]. *)
Definition date_new (y m d : Z) : result date :=
  match check_date_fields y m d as b
        return check_date_fields y m d = b -> result date with
  | true => fun H => Ok (mkdate y m d H)
  | false => fun _ => Raise ValueError
  end eq_refl.

Definition toordinal (a : date) : Z := ymd2ord (year a) (month a) (day a).

(** Comparison of the tuples [(year, month, day)]. *)
Definition date_cmp (a b : date) : comparison :=
  match year a ?= year b with
  | Eq => match month a ?= month b with
          | Eq => day a ?= day b
          | c => c
          end
  | c => c
  end.

Definition date_le (a b : date) : bool :=
  match date_cmp a b with Gt => false | _ => true end.

Definition date_gt (a b : date) : bool :=
  match date_cmp a b with Gt => true | _ => false end.

Definition date_lt (a b : date) : bool :=
  match date_cmp a b with Lt => true | _ => false end.

(** [(a - b).days] *)
Definition date_sub_days (a b : date) : Z := toordinal a - toordinal b.

(** *** Facts about the calendar used by the loop of [years_apart] *)

Lemma check_date_fields_spec (y m d : Z) :
  check_date_fields y m d = true <->
  1 <= y <= 9999 /\ 1 <= m <= 12 /\ 1 <= d <= days_in_month y m.
Proof.
  unfold check_date_fields, MINYEAR, MAXYEAR.
  rewrite !andb_true_iff, !Z.leb_le. lia.
Qed.

Lemma date_fields (a : date) :
  1 <= year a <= 9999 /\ 1 <= month a <= 12 /\
  1 <= day a <= days_in_month (year a) (month a).
Proof. apply check_date_fields_spec, date_checked. Qed.

Lemma date_ext (a b : date) :
  year a = year b -> month a = month b -> day a = day b -> a = b.
Proof.
  destruct a as [ya ma da Ha], b as [yb mb db Hb]; simpl.
  intros -> -> ->. f_equal. apply UIP_dec, bool_dec.
Qed.

Lemma date_new_ok (y m d : Z) (a : date) :
  date_new y m d = Ok a -> year a = y /\ month a = m /\ day a = d.
Proof.
  unfold date_new.
  generalize (@eq_refl bool (check_date_fields y m d)).
  generalize (check_date_fields y m d) at 2 3.
  intros [] e H; [|discriminate].
  injection H as <-. simpl. auto.
Qed.

Lemma date_new_checked (y m d : Z) :
  check_date_fields y m d = true -> exists a, date_new y m d = Ok a.
Proof.
  intros H. unfold date_new.
  generalize (@eq_refl bool (check_date_fields y m d)).
  generalize (check_date_fields y m d) at 2 3.
  intros [] e; [eexists; reflexivity|congruence].
Qed.

Lemma date_new_raises (y m d : Z) :
  check_date_fields y m d = false -> date_new y m d = Raise ValueError.
Proof.
  intros H. unfold date_new.
  generalize (@eq_refl bool (check_date_fields y m d)).
  generalize (check_date_fields y m d) at 2 3.
  intros [] e; [congruence|reflexivity].
Qed.

Ltac month_cases m :=
  let H := fresh "Hm" in
  assert (m = 1 \/ m = 2 \/ m = 3 \/ m = 4 \/ m = 5 \/ m = 6 \/
          m = 7 \/ m = 8 \/ m = 9 \/ m = 10 \/ m = 11 \/ m = 12) as H by lia;
  repeat (destruct H as [H|H]); subst m.

Ltac month_tables :=
  cbv beta iota delta
    [DAYS_BEFORE_MONTH DAYS_IN_MONTH Z.eqb Z.ltb Z.compare Pos.eqb
     Pos.compare Pos.compare_cont andb].

Lemma is_leap_spec (y : Z) :
  is_leap y = true <-> y mod 4 = 0 /\ (y mod 100 <> 0 \/ y mod 400 = 0).
Proof.
  unfold is_leap.
  rewrite andb_true_iff, orb_true_iff, negb_true_iff, Z.eqb_neq, !Z.eqb_eq.
  tauto.
Qed.

Lemma days_before_year_succ (y : Z) :
  days_before_year (y + 1) =
  days_before_year y + 365 + (if is_leap y then 1 else 0).
Proof.
  unfold days_before_year. replace (y + 1 - 1) with y by lia.
  destruct (is_leap y) eqn:L.
  - apply is_leap_spec in L. Z.div_mod_to_equations. lia.
  - assert (~ (y mod 4 = 0 /\ (y mod 100 <> 0 \/ y mod 400 = 0))) as N
      by (rewrite <- is_leap_spec; congruence).
    Z.div_mod_to_equations. lia.
Qed.

Lemma days_before_year_mono (y1 y2 : Z) :
  y1 <= y2 -> days_before_year y1 <= days_before_year y2.
Proof.
  intros H. unfold days_before_year. Z.div_mod_to_equations. lia.
Qed.

(** The day of the year of a date lies within its year. *)
Lemma day_of_year_bounds (a : date) :
  1 <= days_before_month (year a) (month a) + day a
    <= 365 + (if is_leap (year a) then 1 else 0).
Proof.
  destruct (date_fields a) as (_ & Hm & Hd).
  revert Hd. unfold days_before_month, days_in_month.
  generalize (day a) (is_leap (year a)). intros d l.
  generalize dependent (month a). intros m Hm.
  month_cases m; destruct l; month_tables; lia.
Qed.

Lemma date_cmp_Lt_toordinal (a b : date) :
  date_cmp a b = Lt -> toordinal a < toordinal b.
Proof.
  unfold date_cmp, toordinal, ymd2ord.
  destruct (year a ?= year b) eqn:Hy; try discriminate.
  - apply Z.compare_eq in Hy.
    destruct (month a ?= month b) eqn:Hm; try discriminate.
    + apply Z.compare_eq in Hm. rewrite Hy, Hm, Z.compare_lt_iff. lia.
    + intros _. rewrite Z.compare_lt_iff in Hm. rewrite <- Hy.
      destruct (date_fields a) as (_ & Ha & Hda).
      destruct (date_fields b) as (_ & Hb & Hdb).
      rewrite <- Hy in Hdb.
      revert Hda Hdb Hm. unfold days_before_month, days_in_month.
      generalize (day a) (day b) (is_leap (year a)). intros da db l.
      generalize dependent (month b). generalize dependent (month a).
      intros ma Ha mb Hb.
      month_cases ma; month_cases mb; destruct l; month_tables; lia.
  - intros _. rewrite Z.compare_lt_iff in Hy.
    pose proof (day_of_year_bounds a) as Ba.
    pose proof (day_of_year_bounds b) as Bb.
    pose proof (days_before_year_succ (year a)) as S.
    pose proof (days_before_year_mono (year a + 1) (year b)) as M.
    lia.
Qed.

Lemma date_cmp_Eq (a b : date) : date_cmp a b = Eq -> a = b.
Proof.
  unfold date_cmp. intros H. apply date_ext.
  - destruct (year a ?= year b) eqn:Hy; try discriminate.
    now apply Z.compare_eq.
  - destruct (year a ?= year b); try discriminate.
    destruct (month a ?= month b) eqn:Hm; try discriminate.
    now apply Z.compare_eq.
  - destruct (year a ?= year b); try discriminate.
    destruct (month a ?= month b); try discriminate.
    now apply Z.compare_eq.
Qed.

Lemma date_cmp_antisym (a b : date) : date_cmp b a = CompOpp (date_cmp a b).
Proof.
  unfold date_cmp.
  rewrite (Z.compare_antisym (year a)), (Z.compare_antisym (month a)),
    (Z.compare_antisym (day a)).
  destruct (year a ?= year b), (month a ?= month b), (day a ?= day b);
    reflexivity.
Qed.

Lemma date_cmp_refl (a : date) : date_cmp a a = Eq.
Proof. unfold date_cmp. now rewrite !Z.compare_refl. Qed.

(** The field-wise order agrees with the order of the ordinals. *)
Lemma date_le_toordinal (a b : date) :
  date_le a b = true <-> toordinal a <= toordinal b.
Proof.
  unfold date_le. destruct (date_cmp a b) eqn:C.
  - apply date_cmp_Eq in C. subst. split; [lia|reflexivity].
  - apply date_cmp_Lt_toordinal in C. split; [lia|reflexivity].
  - pose proof (date_cmp_antisym a b) as A. rewrite C in A. simpl in A.
    apply date_cmp_Lt_toordinal in A. split; [discriminate|lia].
Qed.

Lemma date_lt_toordinal (a b : date) :
  date_lt a b = true <-> toordinal a < toordinal b.
Proof.
  unfold date_lt. destruct (date_cmp a b) eqn:C.
  - apply date_cmp_Eq in C. subst. split; [discriminate|lia].
  - apply date_cmp_Lt_toordinal in C. split; [lia|reflexivity].
  - pose proof (date_cmp_antisym a b) as A. rewrite C in A. simpl in A.
    apply date_cmp_Lt_toordinal in A. split; [discriminate|lia].
Qed.

Lemma date_gt_le (a b : date) : date_gt a b = negb (date_le a b).
Proof. unfold date_gt, date_le. now destruct (date_cmp a b). Qed.

(** [b] is [a] moved to the same month and day of the following year. *)
Definition year_after (a b : date) : Prop :=
  year b = year a + 1 /\ month b = month a /\ day b = day a.

(** One calendar year is 365 or 366 days. *)
Lemma year_after_toordinal (a b : date) :
  year_after a b ->
  toordinal b - toordinal a = 365 \/ toordinal b - toordinal a = 366.
Proof.
  intros (Hy & Hm & Hd). unfold toordinal, ymd2ord.
  rewrite Hy, Hm, Hd, days_before_year_succ.
  destruct (date_fields a) as (_ & Ha & Hda).
  destruct (date_fields b) as (_ & _ & Hdb).
  rewrite Hy, Hm, Hd in Hdb.
  revert Hda Hdb. unfold days_before_month, days_in_month.
  destruct (is_leap (year a)) eqn:La, (is_leap (year a + 1)) eqn:Lb.
  - apply is_leap_spec in La, Lb. exfalso. Z.div_mod_to_equations. lia.
  - rewrite !andb_false_r, !andb_true_r.
    destruct (2 <? month a) eqn:E; [lia|].
    destruct (month a =? 2) eqn:E2; [|lia].
    apply Z.eqb_eq in E2. rewrite E2. simpl. lia.
  - rewrite !andb_false_r, !andb_true_r.
    destruct (2 <? month a) eqn:E; lia.
  - rewrite !andb_false_r. lia.
Qed.

End Calendar.

Import Calendar.

(** ** The [math] functions, over the reals *)

Local Open Scope R_scope.

(** [x / y] on numbers: division by zero raises. *)
Definition truediv (x y : R) : result R :=
  if Req_dec_T y 0 then Raise ZeroDivisionError else Ok (x / y).

(** [math.log]: a domain error outside the positive numbers. *)
Definition math_log (x : R) : result R :=
  if Rlt_dec 0 x then Ok (ln x) else Raise ValueError.

(** [math.sqrt]: a domain error on negative numbers. *)
Definition math_sqrt (x : R) : result R :=
  if Rle_dec 0 x then Ok (sqrt x) else Raise ValueError.

(** [math.exp] *)
Definition math_exp (x : R) : R := exp x.

(** ** [years_apart] *)

(** The look-ahead date of the loop: [date(date1.year + 1, date1.month,
    date1.day)], which raises [ValueError] where that is not a date. *)
Definition next_year_of (date1 : date) : result date :=
  date_new (year date1 + 1) (month date1) (day date1).

(** Days from the look-ahead date to the later date, the quantity on which
    the loop recurses. *)
Definition loop_measure (date2 next_year : date) : nat :=
  Z.to_nat (date_sub_days date2 next_year + 1).

Lemma next_year_of_after (a b : date) :
  next_year_of a = Ok b -> year_after a b.
Proof. intros H. apply date_new_ok in H. exact H. Qed.

Lemma loop_measure_decreases (date2 next_year next_year' : date) :
  date_le next_year date2 = true ->
  next_year_of next_year = Ok next_year' ->
  (loop_measure date2 next_year' < loop_measure date2 next_year)%nat.
Proof.
  intros Hle Hn. apply date_le_toordinal in Hle.
  apply next_year_of_after, year_after_toordinal in Hn.
  unfold loop_measure, date_sub_days. lia.
Qed.

(** The [while next_year <= date2] loop, on the state
    [(date1, num_years, next_year)]; it returns the final [date1] and
    [num_years]. *)
Equations years_loop (date2 date1 : date) (num_years : R) (next_year : date)
  : result (date * R) by wf (loop_measure date2 next_year) lt :=
  years_loop date2 date1 num_years next_year
    with inspect (date_le next_year date2) => {
    | exist _ false _ := Ok (date1, num_years);
    | exist _ true Hle with inspect (next_year_of next_year) => {
        | exist _ (Raise e) _ := Raise e;
        | exist _ (Ok next_year') Hn :=
            years_loop date2 next_year (num_years + 1) next_year' } }.
Next Obligation.
  eapply loop_measure_decreases; eassumption.
Qed.

(** [years_apart]: the swap, the first look-ahead, the loop, and the days
    left over 365 ([final_year.days / 365], a division that cannot raise). *)
Definition years_apart (date1 date2 : date) : result R :=
  let '(date1, date2) :=
    if date_gt date1 date2 then (date2, date1) else (date1, date2) in
  next_year <- next_year_of date1 ;;
  ' (date1, num_years) <- years_loop date2 date1 0 next_year ;;
  let final_year := date_sub_days date2 date1 in
  Ok (num_years + IZR final_year / 365).

(** The two dates as [years_apart] orders them. *)
Definition earlier (a b : date) : date := if date_gt a b then b else a.
Definition later (a b : date) : date := if date_gt a b then a else b.

(** A date moved [n] whole calendar years forward. *)
Definition years_after (n : nat) (a b : date) : Prop :=
  year b = (year a + Z.of_nat n)%Z /\ month b = month a /\ day b = day a.

(** The big-step reading of the same loop: one rule for leaving the loop, one
    for a [date] construction that raises, one for an iteration. *)
Inductive while_loop (date2 : date) :
  date -> R -> date -> result (date * R) -> Prop :=
| loop_exit date1 num_years next_year :
    date_le next_year date2 = false ->
    while_loop date2 date1 num_years next_year (Ok (date1, num_years))
| loop_raise date1 num_years next_year e :
    date_le next_year date2 = true ->
    next_year_of next_year = Raise e ->
    while_loop date2 date1 num_years next_year (Raise e)
| loop_iter date1 num_years next_year next_year' r :
    date_le next_year date2 = true ->
    next_year_of next_year = Ok next_year' ->
    while_loop date2 next_year (num_years + 1) next_year' r ->
    while_loop date2 date1 num_years next_year r.

(** ** [discount], [fx_option_d1], [fx_option_d2] *)

(** [math.exp(-rate * term)] *)
Definition discount (rate term : R) : R := math_exp (- rate * term).

(** The statements of [fx_option_d1] in their order of evaluation; the
    division by the literal 2 cannot raise. *)
Definition fx_option_d1
  (strike term spot volatility domestic_rate foreign_rate : R) : result R :=
  quotient <- truediv spot strike ;;
  logarithm <- math_log quotient ;;
  let numerator :=
    logarithm + (domestic_rate - foreign_rate + volatility ^ 2 / 2) * term in
  root <- math_sqrt term ;;
  let denominator := volatility * root in
  truediv numerator denominator.

(** [d1 - volatility * math.sqrt(term)] *)
Definition fx_option_d2 (term volatility d1 : R) : result R :=
  root <- math_sqrt term ;;
  Ok (d1 - volatility * root).

(** ** [fx_option_price] *)

Section Pricer.

(** [scipy.stats.norm.cdf], the standard normal cumulative distribution
    function, is used through this interface. *)
Variable norm_cdf : R -> R.

Definition fx_option_price (call : bool) (strike : R)
  (expiration spot_date : date)
  (spot volatility domestic_rate foreign_rate : R) : result R :=
  t <- years_apart spot_date expiration ;;
  d1 <- fx_option_d1 strike t spot volatility domestic_rate foreign_rate ;;
  d2 <- fx_option_d2 t volatility d1 ;;
  let disc_spot := spot * discount foreign_rate t in
  let disc_strike := strike * discount domestic_rate t in
  if call
  then Ok (disc_spot * norm_cdf d1 - disc_strike * norm_cdf d2)
  else Ok (disc_strike * norm_cdf (- d2) - disc_spot * norm_cdf (- d1)).

End Pricer.

(** ** The numeric functions on Python floats *)

Module Binary64.

(** [2 ^ e] for an integer [e] *)
Definition pow2 (e : Z) : R := powerRZ 2 e.

Arguments pow2 : simpl never.

(** The finite binary64 numbers: an integer of fewer than 54 bits times a
    power of two between [2^-1074] and [2^971]. *)
Definition binary64 (x : R) : Prop :=
  exists m e : Z,
    x = IZR m * pow2 e /\ (Z.abs m < 2 ^ 53)%Z /\ (-1074 <= e <= 971)%Z.

(** [f] is a binary64 number nearest to [x]. *)
Definition nearest_binary64 (x f : R) : Prop :=
  binary64 f /\ forall g, binary64 g -> Rabs (f - x) <= Rabs (g - x).

(** A rounding to nearest: IEEE 754 rounds every exact result to a nearest
    binary64 number (to the one with an even significand on a tie, which is
    a choice among the nearest ones and is left open here). *)
Record rounding : Type := {
  rnd : R -> R;
  rnd_nearest : forall x, nearest_binary64 x (rnd x)
}.

(** A Python [float]: a finite number, an infinity or a NaN.  The sign of a
    zero is not recorded: the functions modelled here are not affected by
    it. *)
Inductive float : Type :=
| Finite (x : R)
| PosInf
| NegInf
| NaN.

(** From this magnitude on (the largest finite number plus half a unit in
    its last place) a result rounds to an infinity. *)
Definition overflow_threshold : R := pow2 1024 - pow2 970.

Definition round (rd : rounding) (x : R) : float :=
  if Rle_dec overflow_threshold x then PosInf
  else if Rle_dec x (- overflow_threshold) then NegInf
  else Finite (rnd rd x).

Definition is_nan (f : float) : bool :=
  match f with NaN => true | _ => false end.

Definition is_inf (f : float) : bool :=
  match f with PosInf | NegInf => true | _ => false end.

Definition is_finite (f : float) : bool :=
  match f with Finite _ => true | _ => false end.

(** [a <= b] on floats; false when either is a NaN. *)
Definition fle (a b : float) : Prop :=
  match a, b with
  | NaN, _ | _, NaN => False
  | NegInf, _ | _, PosInf => True
  | Finite x, Finite y => x <= y
  | _, _ => False
  end.

(** [- a] *)
Definition fneg (a : float) : float :=
  match a with
  | Finite x => Finite (- x)
  | PosInf => NegInf
  | NegInf => PosInf
  | NaN => NaN
  end.

(** An infinity times the finite number [x]. *)
Definition inf_times (positive : bool) (x : R) : float :=
  if Req_dec_T x 0 then NaN
  else if Rlt_dec 0 x then (if positive then PosInf else NegInf)
  else (if positive then NegInf else PosInf).

(** [a * b] *)
Definition fmul (rd : rounding) (a b : float) : float :=
  match a, b with
  | NaN, _ | _, NaN => NaN
  | Finite x, Finite y => round rd (x * y)
  | Finite x, PosInf | PosInf, Finite x => inf_times true x
  | Finite x, NegInf | NegInf, Finite x => inf_times false x
  | PosInf, PosInf | NegInf, NegInf => PosInf
  | PosInf, NegInf | NegInf, PosInf => NegInf
  end.

(** [a + b] *)
Definition fadd (rd : rounding) (a b : float) : float :=
  match a, b with
  | NaN, _ | _, NaN => NaN
  | Finite x, Finite y => round rd (x + y)
  | PosInf, NegInf | NegInf, PosInf => NaN
  | PosInf, _ | _, PosInf => PosInf
  | NegInf, _ | _, NegInf => NegInf
  end.

(** [a - b] *)
Definition fsub (rd : rounding) (a b : float) : float := fadd rd a (fneg b).

(** The IEEE quotient [a / b] for a divisor other than 0. *)
Definition fdiv (rd : rounding) (a b : float) : float :=
  match a, b with
  | NaN, _ | _, NaN => NaN
  | Finite x, Finite y => round rd (x / y)
  | Finite _, PosInf | Finite _, NegInf => Finite 0
  | PosInf, Finite y => if Rlt_dec 0 y then PosInf else NegInf
  | NegInf, Finite y => if Rlt_dec 0 y then NegInf else PosInf
  | _, _ => NaN
  end.

(** The IEEE square root. *)
Definition fsqrt (rd : rounding) (a : float) : float :=
  match a with
  | Finite x => if Rle_dec 0 x then round rd (sqrt x) else NaN
  | PosInf => PosInf
  | NegInf => NaN
  | NaN => NaN
  end.

(** Python's [a / b] on floats: a zero divisor raises. *)
Definition truediv (rd : rounding) (a b : float) : result float :=
  match b with
  | Finite y => if Req_dec_T y 0 then Raise ZeroDivisionError
                else Ok (fdiv rd a b)
  | _ => Ok (fdiv rd a b)
  end.

(** The functions of the C library that the [math] module and [**] call;
    what they return is not fixed by the source. *)
Record libm : Type := {
  libm_exp : float -> float;
  libm_log : float -> float;
  libm_pow : float -> float -> float
}.

(** [math.exp]: the library's [exp]; a NaN from a number is a
    [ValueError], an infinity from a finite number an [OverflowError]. *)
Definition math_exp (lm : libm) (x : float) : result float :=
  let r := libm_exp lm x in
  if is_nan r && negb (is_nan x) then Raise ValueError
  else if is_inf r && is_finite x then Raise OverflowError
  else Ok r.

(** [math.log]: the library's [log] on the positive finite numbers, where a
    NaN or an infinity from it is a [ValueError]; [inf] and NaN are
    returned as they are; zero, the negative numbers and [-inf] raise
    [ValueError]. *)
Definition math_log (lm : libm) (x : float) : result float :=
  match x with
  | Finite v =>
      if Rlt_dec 0 v
      then (let r := libm_log lm x in
            if is_nan r || is_inf r then Raise ValueError else Ok r)
      else Raise ValueError
  | PosInf => Ok PosInf
  | NegInf => Raise ValueError
  | NaN => Ok NaN
  end.

(** [math.sqrt]: a NaN from a number is a [ValueError]. *)
Definition math_sqrt (rd : rounding) (x : float) : result float :=
  let r := fsqrt rd x in
  if is_nan r && negb (is_nan x) then Raise ValueError
  else if is_inf r && is_finite x then Raise ValueError
  else Ok r.

(** [x ** 2]: NaN, the infinities, 0 and 1 are answered without the
    library; otherwise the library's [pow] is called on the magnitude, and
    an infinity from it is an [OverflowError]. *)
Definition float_pow2 (lm : libm) (x : float) : result float :=
  match x with
  | NaN => Ok NaN
  | PosInf | NegInf => Ok PosInf
  | Finite v =>
      if Req_dec_T v 0 then Ok (Finite 0)
      else if Req_dec_T (Rabs v) 1 then Ok (Finite 1)
      else (let r := libm_pow lm (Finite (Rabs v)) (Finite 2) in
            if is_inf r then Raise OverflowError else Ok r)
  end.

(** [discount], in binary64 *)
Definition discount (rd : rounding) (lm : libm) (rate term : float)
  : result float :=
  math_exp lm (fmul rd (fneg rate) term).

(** [fx_option_d1], in binary64, its operations in their order of
    evaluation. *)
Definition fx_option_d1 (rd : rounding) (lm : libm)
  (strike term spot volatility domestic_rate foreign_rate : float)
  : result float :=
  quotient <- truediv rd spot strike ;;
  logarithm <- math_log lm quotient ;;
  square <- float_pow2 lm volatility ;;
  let numerator :=
    fadd rd logarithm
      (fmul rd (fadd rd (fsub rd domestic_rate foreign_rate)
                  (fdiv rd square (Finite 2)))
         term) in
  root <- math_sqrt rd term ;;
  let denominator := fmul rd volatility root in
  truediv rd numerator denominator.

(** [fx_option_d2], in binary64 *)
Definition fx_option_d2 (rd : rounding) (term volatility d1 : float)
  : result float :=
  root <- math_sqrt rd term ;;
  Ok (fsub rd d1 (fmul rd volatility root)).

(** Properties of the C library's functions that the theorems assume where
    they say so. *)
Definition exp_of_zero (lm : libm) : Prop :=
  libm_exp lm (Finite 0) = Finite 1.

Definition exp_overflows (lm : libm) : Prop :=
  forall x, 1000 <= x -> libm_exp lm (Finite x) = PosInf.

Definition exp_monotone (lm : libm) : Prop :=
  forall a b, fle a b -> fle (libm_exp lm a) (libm_exp lm b).

Definition log_finite (lm : libm) : Prop :=
  forall x, binary64 x -> 0 < x -> exists l, libm_log lm (Finite x) = Finite l.

Lemma pow2_pos (e : Z) : 0 < pow2 e.
Proof. apply powerRZ_lt. lra. Qed.

Lemma pow2_add (a b : Z) : pow2 (a + b) = pow2 a * pow2 b.
Proof. apply powerRZ_add. lra. Qed.

Lemma pow2_nonneg_exponent (n : nat) : 1 <= pow2 (Z.of_nat n).
Proof.
  unfold pow2. rewrite <- pow_powerRZ. apply pow_R1_Rle. lra.
Qed.

Lemma pow2_le (a b : Z) : (a <= b)%Z -> pow2 a <= pow2 b.
Proof.
  intros H. replace b with (a + Z.of_nat (Z.to_nat (b - a)))%Z by lia.
  rewrite pow2_add.
  pose proof (pow2_nonneg_exponent (Z.to_nat (b - a))).
  pose proof (pow2_pos a). nra.
Qed.

Lemma pow2_succ (a : Z) : pow2 (a + 1) = 2 * pow2 a.
Proof. rewrite pow2_add. unfold pow2 at 2. simpl. lra. Qed.

Lemma pow2_lt (a b : Z) : (a < b)%Z -> pow2 a < pow2 b.
Proof.
  intros H. pose proof (pow2_le (a + 1) b ltac:(lia)) as L.
  rewrite pow2_succ in L. pose proof (pow2_pos a). lra.
Qed.

Lemma pow2_0 : pow2 0 = 1.
Proof. reflexivity. Qed.

Lemma binary64_0 : binary64 0.
Proof. exists 0%Z, 0%Z. split; [lra|]. split; [reflexivity|lia]. Qed.

Lemma binary64_pow2 (e : Z) : (-1074 <= e <= 971)%Z -> binary64 (pow2 e).
Proof.
  intros H. exists 1%Z, e. split; [lra|]. split; [reflexivity|exact H].
Qed.

Lemma binary64_integer (m : Z) : (Z.abs m < 2 ^ 53)%Z -> binary64 (IZR m).
Proof.
  intros H. exists m, 0%Z. rewrite pow2_0. split; [lra|]. split; [exact H|lia].
Qed.

Lemma binary64_opp (x : R) : binary64 x -> binary64 (- x).
Proof.
  intros (m & e & -> & Hm & He). exists (- m)%Z, e.
  rewrite opp_IZR. split; [lra|]. split; [lia|exact He].
Qed.

(** A binary64 number other than 0 is at least [2^-1074] in magnitude. *)
Lemma binary64_smallest (g : R) :
  binary64 g -> g <> 0 -> pow2 (-1074) <= Rabs g.
Proof.
  intros (m & e & -> & Hm & He) Hg.
  assert (m <> 0)%Z as Hm0 by (intros ->; apply Hg; lra).
  rewrite Rabs_mult, (Rabs_pos_eq (pow2 e)) by (left; apply pow2_pos).
  assert (1 <= Rabs (IZR m)) as H1.
  { rewrite <- abs_IZR. apply IZR_le. lia. }
  pose proof (pow2_le (-1074) e ltac:(lia)). pose proof (pow2_pos (-1074)).
  nra.
Qed.

Lemma pow2_53 : pow2 53 = 9007199254740992.
Proof. unfold pow2. simpl. lra. Qed.

Lemma overflow_threshold_eq :
  overflow_threshold = pow2 970 * (pow2 53 * 2 - 1).
Proof.
  unfold overflow_threshold.
  replace 1024%Z with (970 + (53 + 1))%Z by reflexivity.
  rewrite pow2_add, pow2_succ. lra.
Qed.

Lemma overflow_threshold_large : pow2 53 < overflow_threshold.
Proof.
  rewrite overflow_threshold_eq, pow2_53.
  pose proof (pow2_le 0 970 ltac:(lia)) as H. rewrite pow2_0 in H. nra.
Qed.

(** Every binary64 number is below the overflow threshold in magnitude. *)
Lemma binary64_bound (x : R) : binary64 x -> Rabs x < overflow_threshold.
Proof.
  intros (m & e & -> & Hm & He).
  rewrite Rabs_mult, (Rabs_pos_eq (pow2 e)) by (left; apply pow2_pos).
  assert (Rabs (IZR m) <= pow2 53 - 1) as H1.
  { rewrite <- abs_IZR, pow2_53.
    replace (9007199254740992 - 1) with (IZR (2 ^ 53 - 1)) by (simpl; lra).
    apply IZR_le. lia. }
  pose proof (Rabs_pos (IZR m)) as H0.
  pose proof (pow2_le e 971 ltac:(lia)) as H2.
  pose proof (pow2_pos e) as H3.
  rewrite overflow_threshold_eq.
  pose proof (pow2_succ 970) as H4. change (970 + 1)%Z with 971%Z in H4.
  pose proof (pow2_pos 970) as H5. rewrite pow2_53 in *.
  assert (Rabs (IZR m) * pow2 e <= (9007199254740992 - 1) * pow2 971) as H6.
  { apply Rmult_le_compat; lra. }
  nra.
Qed.

Section Rounding.

Variable rd : rounding.

Lemma rnd_binary64 (x : R) : binary64 (rnd rd x).
Proof. apply rnd_nearest. Qed.

(** A binary64 number rounds to itself. *)
Lemma rnd_id (x : R) : binary64 x -> rnd rd x = x.
Proof.
  intros H. destruct (rnd_nearest rd x) as [_ N]. specialize (N x H).
  replace (x - x) with 0 in N by lra. rewrite Rabs_R0 in N.
  pose proof (Rabs_pos (rnd rd x - x)).
  assert (Rabs (rnd rd x - x) = 0) as E by lra.
  destruct (Req_dec (rnd rd x - x) 0) as [Z|Z]; [lra|].
  apply Rabs_no_R0 in Z. contradiction.
Qed.

(** Rounding to nearest keeps the order. *)
Lemma rnd_monotone (x y : R) : x <= y -> rnd rd x <= rnd rd y.
Proof.
  intros Hxy. destruct (Rle_lt_dec (rnd rd x) (rnd rd y)) as [|Hlt];
    [assumption|exfalso].
  destruct (rnd_nearest rd x) as [Fx Nx], (rnd_nearest rd y) as [Fy Ny].
  specialize (Nx _ Fy). specialize (Ny _ Fx).
  assert (x = y) as E.
  { revert Nx Ny. unfold Rabs.
    repeat match goal with |- context [Rcase_abs ?a] =>
             destruct (Rcase_abs a) end; lra. }
  subst y. lra.
Qed.

(** What is nearer to 0 than half the smallest positive number rounds
    to 0. *)
Lemma rnd_underflow (x : R) : Rabs x < pow2 (-1075) -> rnd rd x = 0.
Proof.
  intros Hx. destruct (Req_dec (rnd rd x) 0) as [|Hnz]; [assumption|exfalso].
  destruct (rnd_nearest rd x) as [F N].
  pose proof (binary64_smallest _ F Hnz) as Hs.
  specialize (N 0 binary64_0).
  pose proof (pow2_succ (-1075)) as P.
  change (-1075 + 1)%Z with (-1074)%Z in P.
  pose proof (pow2_pos (-1075)) as Q.
  revert Hx Hs N. unfold Rabs.
  repeat match goal with |- context [Rcase_abs ?a] =>
           destruct (Rcase_abs a) end; lra.
Qed.

Lemma round_finite (x : R) :
  - overflow_threshold < x < overflow_threshold ->
  round rd x = Finite (rnd rd x).
Proof.
  intros H. unfold round.
  destruct (Rle_dec overflow_threshold x); [lra|].
  destruct (Rle_dec x (- overflow_threshold)); [lra|]. reflexivity.
Qed.

(** A binary64 number is its own rounding. *)
Lemma round_id (x : R) : binary64 x -> round rd x = Finite x.
Proof.
  intros H. pose proof (binary64_bound x H) as B.
  rewrite round_finite, rnd_id; [reflexivity|assumption|].
  apply Rabs_def2 in B. lra.
Qed.

(** Rounding, overflow included, keeps the order. *)
Lemma round_monotone (x y : R) : x <= y -> fle (round rd x) (round rd y).
Proof.
  intros H. pose proof overflow_threshold_large as T.
  pose proof pow2_53 as P.
  unfold round.
  destruct (Rle_dec overflow_threshold x), (Rle_dec overflow_threshold y);
    try (destruct (Rle_dec x (- overflow_threshold)));
    try (destruct (Rle_dec y (- overflow_threshold)));
    simpl; try exact I; try lra.
  now apply rnd_monotone.
Qed.

(** A result too small for the smallest positive number rounds to 0. *)
Lemma round_underflow (x : R) :
  Rabs x < pow2 (-1075) -> round rd x = Finite 0.
Proof.
  intros H. rewrite round_finite, rnd_underflow; [reflexivity|assumption|].
  pose proof overflow_threshold_large as T. rewrite pow2_53 in T.
  pose proof (pow2_le (-1075) 0 ltac:(lia)) as L. rewrite pow2_0 in L.
  apply Rabs_def2 in H. lra.
Qed.

Lemma is_nan_round (x : R) : is_nan (round rd x) = false.
Proof.
  unfold round. destruct (Rle_dec overflow_threshold x); [reflexivity|].
  destruct (Rle_dec x (- overflow_threshold)); reflexivity.
Qed.

(** A result that is not negative rounds to a binary64 number that is not
    negative, or to [inf]. *)
Lemma round_nonneg_cases (x : R) :
  0 <= x ->
  (exists q, round rd x = Finite q /\ 0 <= q /\ binary64 q) \/
  round rd x = PosInf.
Proof.
  intros H. pose proof overflow_threshold_large as T. rewrite pow2_53 in T.
  unfold round. destruct (Rle_dec overflow_threshold x); [now right|].
  destruct (Rle_dec x (- overflow_threshold)); [lra|]. left.
  exists (rnd rd x). split; [reflexivity|]. split; [|apply rnd_binary64].
  rewrite <- (rnd_id 0 binary64_0). now apply rnd_monotone.
Qed.

(** The square root of a binary64 number is in range. *)
Lemma fsqrt_finite (x : R) :
  binary64 x -> 0 <= x -> fsqrt rd (Finite x) = Finite (rnd rd (sqrt x)).
Proof.
  intros F H. unfold fsqrt. destruct (Rle_dec 0 x); [|contradiction].
  apply round_finite.
  pose proof (binary64_bound x F) as B. rewrite Rabs_pos_eq in B by assumption.
  pose proof overflow_threshold_large as T. rewrite pow2_53 in T.
  pose proof (sqrt_pos x) as S. pose proof (sqrt_sqrt x H) as Q.
  split; [lra|].
  destruct (Rlt_le_dec (sqrt x) overflow_threshold) as [|G]; [assumption|].
  exfalso. nra.
Qed.

End Rounding.

(** ** A rounding to nearest exists *)

Lemma argmin_range (d : Z -> R) (lo : Z) (n : nat) :
  exists k, (lo <= k <= lo + Z.of_nat n)%Z /\
            forall j, (lo <= j <= lo + Z.of_nat n)%Z -> d k <= d j.
Proof.
  induction n as [|n (k & Hk & Hmin)].
  - exists lo. split; [lia|]. intros j Hj. replace j with lo by lia. lra.
  - destruct (Rle_lt_dec (d k) (d (lo + Z.of_nat (S n))%Z)) as [H|H].
    + exists k. split; [lia|]. intros j Hj.
      destruct (Z.eq_dec j (lo + Z.of_nat (S n))) as [->|Hne];
        [assumption|apply Hmin; lia].
    + exists (lo + Z.of_nat (S n))%Z. split; [lia|]. intros j Hj.
      destruct (Z.eq_dec j (lo + Z.of_nat (S n))) as [->|Hne]; [lra|].
      specialize (Hmin j ltac:(lia)). lra.
Qed.

Lemma argmin_box (d : Z -> Z -> R) (lo1 : Z) (n1 : nat) (lo2 : Z) (n2 : nat) :
  exists m e,
    ((lo1 <= m <= lo1 + Z.of_nat n1) /\ (lo2 <= e <= lo2 + Z.of_nat n2))%Z /\
    forall m' e',
      (lo1 <= m' <= lo1 + Z.of_nat n1)%Z ->
      (lo2 <= e' <= lo2 + Z.of_nat n2)%Z -> d m e <= d m' e'.
Proof.
  induction n2 as [|n2 (m & e & (Hm & He) & Hmin)].
  - destruct (argmin_range (fun m => d m lo2) lo1 n1) as (m & Hm & Hmin).
    exists m, lo2. split; [lia|]. intros m' e' Hm' He'.
    replace e' with lo2 by lia. now apply Hmin.
  - destruct (argmin_range (fun m => d m (lo2 + Z.of_nat (S n2))%Z) lo1 n1)
      as (m1 & Hm1 & Hmin1).
    destruct (Rle_lt_dec (d m e) (d m1 (lo2 + Z.of_nat (S n2))%Z)) as [H|H].
    + exists m, e. split; [lia|]. intros m' e' Hm' He'.
      destruct (Z.eq_dec e' (lo2 + Z.of_nat (S n2))) as [->|Hne].
      * specialize (Hmin1 m' Hm'). cbv beta in Hmin1. lra.
      * apply Hmin; lia.
    + exists m1, (lo2 + Z.of_nat (S n2))%Z. split; [lia|].
      intros m' e' Hm' He'.
      destruct (Z.eq_dec e' (lo2 + Z.of_nat (S n2))) as [->|Hne].
      * now apply Hmin1.
      * specialize (Hmin m' e' Hm' ltac:(lia)). lra.
Qed.

Lemma nearest_exists (x : R) : exists f, nearest_binary64 x f.
Proof.
  destruct (argmin_box (fun m e => Rabs (IZR m * pow2 e - x))
              (- (2 ^ 53 - 1)) (Z.to_nat (2 * (2 ^ 53 - 1)))
              (-1074) (Z.to_nat 2045))
    as (m & e & (Hm & He) & Hmin).
  exists (IZR m * pow2 e). split.
  - exists m, e. split; [reflexivity|]. split; lia.
  - intros g (m' & e' & -> & Hm' & He'). apply Hmin; lia.
Qed.

(** A rounding to nearest, with the ties broken in some way. *)
Definition nearest_rounding : rounding :=
  {| rnd := fun x =>
       proj1_sig (constructive_indefinite_description _ (nearest_exists x));
     rnd_nearest := fun x =>
       proj2_sig (constructive_indefinite_description _ (nearest_exists x)) |}.

(** A C library whose functions are the rounded real ones. *)
Definition rounded_libm (rd : rounding) : libm :=
  {| libm_exp := fun a =>
       match a with
       | Finite x => round rd (exp x)
       | PosInf => PosInf
       | NegInf => Finite 0
       | NaN => NaN
       end;
     libm_log := fun a =>
       match a with
       | Finite x => if Rlt_dec 0 x then round rd (ln x)
                     else if Req_dec_T x 0 then NegInf else NaN
       | PosInf => PosInf
       | NegInf => NaN
       | NaN => NaN
       end;
     libm_pow := fun a b =>
       match a, b with
       | Finite x, Finite y => if Rlt_dec 0 x then round rd (Rpower x y)
                               else NaN
       | _, _ => NaN
       end |}.

Lemma exp_INR (n : nat) (x : R) : exp (INR n * x) = exp x ^ n.
Proof.
  induction n as [|n IH].
  - simpl. rewrite Rmult_0_l. apply exp_0.
  - rewrite S_INR, Rmult_plus_distr_r, Rmult_1_l, exp_plus, IH. simpl. ring.
Qed.

Lemma pow2_pow (a : Z) (n : nat) : pow2 a ^ n = pow2 (a * Z.of_nat n).
Proof.
  induction n as [|n IH].
  - rewrite Z.mul_0_r. reflexivity.
  - rewrite Nat2Z.inj_succ, Z.mul_succ_r, pow2_add, <- IH. simpl. ring.
Qed.

(** [2^n <= e^n] *)
Lemma pow2_le_exp (n : nat) : pow2 (Z.of_nat n) <= exp (INR n).
Proof.
  replace (INR n) with (INR n * 1) by ring. rewrite exp_INR.
  replace (Z.of_nat n) with (1 * Z.of_nat n)%Z by lia. rewrite <- pow2_pow.
  apply pow_incr. unfold pow2. simpl.
  pose proof (exp_ineq1 1 ltac:(lra)). lra.
Qed.

(** [e^1000] is beyond the binary64 range. *)
Lemma exp_1000_overflows : overflow_threshold <= exp 1000.
Proof.
  apply Rle_trans with (pow2 1024).
  { unfold overflow_threshold. pose proof (pow2_pos 970). lra. }
  assert (exp 1000 = exp (1 / 2) ^ 2000) as ->.
  { rewrite <- exp_INR. f_equal. rewrite INR_IZR_INZ.
    change (IZR (Z.of_nat 2000)) with 2000. lra. }
  pose proof (exp_ineq1_le (1 / 2)) as Ha.
  apply Rle_trans with ((3 / 2) ^ 2000); [|apply pow_incr; lra].
  replace 2000%nat with (7 * 285 + 5)%nat by reflexivity.
  rewrite pow_add, pow_mult.
  assert (pow2 4 <= (3 / 2) ^ 7) as H7 by (unfold pow2; simpl; lra).
  assert (pow2 4 ^ 285 <= ((3 / 2) ^ 7) ^ 285) as H285
    by (apply pow_incr; pose proof (pow2_pos 4); lra).
  rewrite pow2_pow in H285.
  change (4 * Z.of_nat 285)%Z with 1140%Z in H285.
  assert (1 <= (3 / 2) ^ 5) as H5 by (simpl; lra).
  pose proof (pow2_le 1024 1140 ltac:(lia)) as L.
  pose proof (pow2_pos 1024) as P. nra.
Qed.

Section Reference.

Variable rd : rounding.

Lemma rounded_libm_exp_of_zero : exp_of_zero (rounded_libm rd).
Proof.
  unfold exp_of_zero. simpl. rewrite exp_0. apply round_id.
  apply (binary64_integer 1). reflexivity.
Qed.

Lemma rounded_libm_exp_overflows : exp_overflows (rounded_libm rd).
Proof.
  intros x Hx. simpl. unfold round.
  destruct (Rle_dec overflow_threshold (exp x)) as [|N]; [reflexivity|].
  exfalso. apply N. apply Rle_trans with (exp 1000).
  - apply exp_1000_overflows.
  - destruct Hx as [Hx|<-]; [left; now apply exp_increasing|lra].
Qed.

Lemma round_nonneg (x : R) : 0 <= x -> fle (Finite 0) (round rd x).
Proof.
  intros H. rewrite <- (round_id rd 0 binary64_0). now apply round_monotone.
Qed.

Lemma round_below_inf (x : R) : fle (round rd x) PosInf.
Proof.
  unfold round. destruct (Rle_dec overflow_threshold x); [exact I|].
  destruct (Rle_dec x (- overflow_threshold)); exact I.
Qed.

Lemma rounded_libm_exp_monotone : exp_monotone (rounded_libm rd).
Proof.
  intros a b H. destruct a as [x| | |], b as [y| | |]; simpl in *;
    try contradiction; try exact I.
  - apply round_monotone.
    destruct H as [H|<-]; [left; now apply exp_increasing|lra].
  - apply round_below_inf.
  - apply round_nonneg. left. apply exp_pos.
  - lra.
Qed.

Lemma rounded_libm_log_finite : log_finite (rounded_libm rd).
Proof.
  intros x Fx Hx. simpl. destruct (Rlt_dec 0 x) as [_|N]; [|contradiction].
  rewrite round_finite; [eexists; reflexivity|].
  pose proof overflow_threshold_large as T. rewrite pow2_53 in T.
  split.
  - assert (-1074 <= ln x); [|lra].
    destruct (Rle_lt_dec (-1074) (ln x)) as [|Hlt]; [assumption|exfalso].
    apply exp_increasing in Hlt. rewrite exp_ln in Hlt by assumption.
    pose proof (binary64_smallest x Fx ltac:(lra)) as S.
    rewrite Rabs_pos_eq in S by lra.
    pose proof (pow2_le_exp 1074) as E.
    rewrite INR_IZR_INZ in E.
    change (IZR (Z.of_nat 1074)) with 1074 in E.
    change (Z.of_nat 1074) with 1074%Z in E.
    pose proof (exp_plus (-1074) 1074) as Q.
    replace (-1074 + 1074) with 0 in Q by lra. rewrite exp_0 in Q.
    pose proof (pow2_add (-1074) 1074) as P.
    change (-1074 + 1074)%Z with 0%Z in P. rewrite pow2_0 in P.
    pose proof (pow2_pos (-1074)). pose proof (exp_pos (-1074)).
    pose proof (pow2_pos 1074). nra.
  - pose proof (exp_ineq1_le (ln x)) as L. rewrite exp_ln in L by assumption.
    pose proof (binary64_bound x Fx) as B.
    rewrite Rabs_pos_eq in B by lra. lra.
Qed.

(** The discount factor with the rounded library, where the product is
    exact and the exponential in range. *)
Lemma discount_rounded_libm (rate term : R) :
  binary64 (- rate * term) ->
  exp (- rate * term) < overflow_threshold ->
  discount rd (rounded_libm rd) (Finite rate) (Finite term)
  = Ok (Finite (rnd rd (exp (- rate * term)))).
Proof.
  intros Hp He. unfold discount. cbn [fneg fmul].
  rewrite (round_id rd _ Hp). unfold math_exp. cbn [libm_exp rounded_libm].
  rewrite round_finite; [reflexivity|].
  pose proof (exp_pos (- rate * term)).
  pose proof overflow_threshold_large as T. rewrite pow2_53 in T. lra.
Qed.

End Reference.


End Binary64.

(** ** Dates of the examples *)

Definition date_1959_05_03 : date := mkdate 1959 5 3 eq_refl.
Definition date_1960_05_03 : date := mkdate 1960 5 3 eq_refl.
Definition date_2004_01_01 : date := mkdate 2004 1 1 eq_refl.
Definition date_2004_02_29 : date := mkdate 2004 2 29 eq_refl.
Definition date_2004_03_01 : date := mkdate 2004 3 1 eq_refl.
Definition date_2005_01_01 : date := mkdate 2005 1 1 eq_refl.
Definition date_2005_01_02 : date := mkdate 2005 1 2 eq_refl.
Definition date_2008_02_29 : date := mkdate 2008 2 29 eq_refl.
Definition date_2019_04_01 : date := mkdate 2019 4 1 eq_refl.
Definition date_2019_07_01 : date := mkdate 2019 7 1 eq_refl.
Definition date_9998_01_01 : date := mkdate 9998 1 1 eq_refl.
Definition date_9999_01_01 : date := mkdate 9999 1 1 eq_refl.

(** A distribution function symmetric about 0 (the Cauchy one), to
    instantiate the interface of [norm_cdf]. *)
Definition cauchy_cdf (x : R) : R := 1 / 2 + atan x / PI.

(** ** Notions used to state further properties *)

(** [(x.month, x.day) < (y.month, y.day)] *)
Definition month_day_lt (x y : date) : bool :=
  (month x <? month y)%Z || ((month x =? month y)%Z && (day x <? day y)%Z).

(** The completed calendar years from [a] to a date [b] on or after it: the
    difference of the years, less one when [b] falls earlier in its year
    than [a] does in its own. *)
Definition completed_years (a b : date) : Z :=
  (year b - year a - (if month_day_lt b a then 1 else 0))%Z.

(** * Properties *)

(** ** The loop of [years_apart] *)

Lemma years_loop_eq (date2 date1 : date) (num_years : R) (next_year : date) :
  years_loop date2 date1 num_years next_year =
  if date_le next_year date2
  then next_year' <- next_year_of next_year ;;
       years_loop date2 next_year (num_years + 1) next_year'
  else Ok (date1, num_years).
Proof.
  funelim (years_loop date2 date1 num_years next_year);
    clear Heqcall;
    try match goal with E : date_le _ _ = _ |- _ => rewrite E end;
    try match goal with E : next_year_of _ = _ |- _ => rewrite E end;
    reflexivity.
Qed.

(** Induction on the loop: a property of the look-ahead date that holds when
    the loop is left or raises, and is inherited from the next iteration,
    holds of every look-ahead date. *)
Lemma years_loop_ind (date2 : date) (P : date -> Prop) :
  (forall next_year,
      (forall next_year',
          date_le next_year date2 = true ->
          next_year_of next_year = Ok next_year' -> P next_year') ->
      P next_year) ->
  forall next_year, P next_year.
Proof.
  intros step next_year.
  remember (loop_measure date2 next_year) as m eqn:Hm.
  revert next_year Hm.
  induction m as [m IH] using lt_wf_ind. intros next_year ->.
  apply step. intros next_year' Hle Hn.
  apply (IH (loop_measure date2 next_year')); [|reflexivity].
  now apply loop_measure_decreases.
Qed.

(** The function computes the outcome of the big-step loop. *)
Lemma years_loop_runs (date2 date1 : date) (num_years : R) (next_year : date) :
  while_loop date2 date1 num_years next_year
    (years_loop date2 date1 num_years next_year).
Proof.
  revert date1 num_years.
  induction next_year as [next_year IH] using (years_loop_ind date2).
  intros date1 num_years. rewrite years_loop_eq.
  destruct (date_le next_year date2) eqn:Hle.
  - destruct (next_year_of next_year) as [next_year'|e] eqn:Hn; simpl.
    + eapply loop_iter; eauto.
    + now apply loop_raise.
  - now apply loop_exit.
Qed.

Lemma while_loop_deterministic (date2 date1 : date) (num_years : R)
  (next_year : date) (r1 r2 : result (date * R)) :
  while_loop date2 date1 num_years next_year r1 ->
  while_loop date2 date1 num_years next_year r2 -> r1 = r2.
Proof.
  intros H1. revert r2.
  induction H1 as [d n x Hx|d n x e Hx He|d n x x' r Hx Hn H IH];
    intros r2 H2; inversion H2; subst; try congruence.
  apply IH. congruence.
Qed.

(** What a returning loop has done: [k] iterations moved the cursor [k]
    calendar years forward and added [k] to the counter; the cursor is still
    on or before the later date, and one more year would pass it. *)
Lemma years_loop_returns (date2 date1 : date) (num_years : R)
  (next_year cursor : date) (total : R) :
  year_after date1 next_year ->
  date_le date1 date2 = true ->
  years_loop date2 date1 num_years next_year = Ok (cursor, total) ->
  exists k : nat,
    total = num_years + INR k /\
    year cursor = (year date1 + Z.of_nat k)%Z /\
    month cursor = month date1 /\ day cursor = day date1 /\
    date_le cursor date2 = true /\
    exists next, year_after cursor next /\ date_le next date2 = false.
Proof.
  revert date1 num_years.
  induction next_year as [next_year IH] using (years_loop_ind date2).
  intros date1 num_years Hinv Hcur. rewrite years_loop_eq.
  destruct (date_le next_year date2) eqn:Hle.
  - destruct (next_year_of next_year) as [next_year'|e] eqn:Hn; simpl;
      [|discriminate].
    intros H.
    destruct (IH next_year' eq_refl eq_refl next_year (num_years + 1)
                (next_year_of_after _ _ Hn) Hle H)
      as (k & Ht & Hy & Hm & Hd & Hc & Hx).
    destruct Hinv as (Iy & Im & Id).
    exists (S k). rewrite S_INR. repeat split; try congruence.
    + rewrite Ht. lra.
    + lia.
  - intros H. injection H as <- <-. exists 0%nat. simpl.
    repeat split; try lra; try lia; try assumption.
    exists next_year. split; assumption.
Qed.

(** ** [years_apart] after the swap *)

Lemma years_apart_sorted (a b : date) :
  years_apart a b =
  (next_year <- next_year_of (earlier a b) ;;
   ' (date1, num_years) <- years_loop (later a b) (earlier a b) 0 next_year ;;
   Ok (num_years + IZR (date_sub_days (later a b) date1) / 365)).
Proof. unfold years_apart, earlier, later. now destruct (date_gt a b). Qed.

Lemma earlier_le_later (a b : date) : date_le (earlier a b) (later a b) = true.
Proof.
  unfold earlier, later. rewrite date_gt_le.
  destruct (date_le a b) eqn:E; simpl; [assumption|].
  unfold date_le in *. rewrite date_cmp_antisym.
  now destruct (date_cmp a b).
Qed.

Lemma earlier_later_swap (a b : date) :
  earlier a b = earlier b a /\ later a b = later b a.
Proof.
  unfold earlier, later, date_gt. rewrite (date_cmp_antisym a b).
  destruct (date_cmp a b) eqn:C; simpl; auto.
  apply date_cmp_Eq in C. now subst.
Qed.

(** The value [years_apart] returns: a whole number of years plus the days
    left after them, divided by 365. *)
Lemma years_apart_returns (a b : date) (t : R) :
  years_apart a b = Ok t ->
  exists (k : nat) (cursor : date),
    t = INR k + IZR (date_sub_days (later a b) cursor) / 365 /\
    year cursor = (year (earlier a b) + Z.of_nat k)%Z /\
    month cursor = month (earlier a b) /\ day cursor = day (earlier a b) /\
    (0 <= date_sub_days (later a b) cursor <= 365)%Z.
Proof.
  rewrite years_apart_sorted.
  destruct (next_year_of (earlier a b)) as [next_year|e] eqn:Hn; simpl;
    [|discriminate].
  destruct (years_loop (later a b) (earlier a b) 0 next_year)
    as [[cursor total]|e] eqn:Hl; simpl; [|discriminate].
  intros H. injection H as <-.
  apply years_loop_returns in Hl;
    [|now apply next_year_of_after|apply earlier_le_later].
  destruct Hl as (k & Ht & Hy & Hm & Hd & Hc & next & Hnext & Hx).
  exists k, cursor. repeat split; try assumption.
  - rewrite Ht. lra.
  - apply date_le_toordinal in Hc. unfold date_sub_days. lia.
  - apply year_after_toordinal in Hnext.
    assert (~ (toordinal next <= toordinal (later a b))%Z) as N
      by (rewrite <- date_le_toordinal; congruence).
    unfold date_sub_days. lia.
Qed.

(** *** Where the look-ahead date exists *)

Lemma next_year_of_defined (a : date) :
  (year a < 9999)%Z -> ~ (month a = 2%Z /\ day a = 29%Z) ->
  exists b, next_year_of a = Ok b.
Proof.
  intros Hy Hleap. apply date_new_checked, check_date_fields_spec.
  destruct (date_fields a) as (Ya & Ma & Da).
  repeat split; try lia.
  revert Da Hleap. unfold days_in_month.
  generalize (day a) (is_leap (year a)) (is_leap (year a + 1)).
  intros d l l'. generalize dependent (month a). intros m Ma.
  month_cases m; destruct l, l'; month_tables; lia.
Qed.

Lemma next_year_of_leap_day (a : date) :
  month a = 2%Z -> day a = 29%Z -> next_year_of a = Raise ValueError.
Proof.
  intros Hm Hd. apply date_new_raises.
  destruct (check_date_fields (year a + 1) (month a) (day a)) eqn:C;
    [|reflexivity].
  apply check_date_fields_spec in C. destruct C as (_ & _ & C).
  destruct (date_fields a) as (_ & _ & Da).
  revert C Da. rewrite Hm, Hd. unfold days_in_month.
  destruct (is_leap (year a)) eqn:La, (is_leap (year a + 1)) eqn:Lb;
    month_tables; try lia.
  apply is_leap_spec in La, Lb. Z.div_mod_to_equations. lia.
Qed.

Lemma years_loop_whole (n : nat) :
  forall (date2 date1 : date) (num_years : R) (next_year : date),
    year_after date1 next_year ->
    years_after n date1 date2 ->
    (year date2 < 9999)%Z -> ~ (month date1 = 2%Z /\ day date1 = 29%Z) ->
    years_loop date2 date1 num_years next_year = Ok (date2, num_years + INR n).
Proof.
  induction n as [|n IH];
    intros date2 date1 num_years next_year (Iy & Im & Id) (Ny & Nm & Nd)
      Hmax Hleap;
    rewrite years_loop_eq.
  - assert (date_le next_year date2 = false) as ->.
    { unfold date_le, date_cmp.
      replace (year next_year ?= year date2)%Z with Gt; [reflexivity|].
      symmetry. apply Z.compare_gt_iff. lia. }
    cbn [INR]. rewrite Rplus_0_r. do 2 f_equal. apply date_ext; lia.
  - assert (date_le next_year date2 = true) as ->.
    { unfold date_le, date_cmp.
      destruct (year next_year ?= year date2)%Z eqn:C; try reflexivity.
      - apply Z.compare_eq in C.
        now rewrite Im, Id, <- Nm, <- Nd, !Z.compare_refl.
      - apply Z.compare_gt_iff in C. lia. }
    destruct (next_year_of_defined next_year) as [next_year' Hn];
      [lia|now rewrite Im, Id|].
    rewrite Hn. cbn [bind].
    rewrite (IH date2 next_year (num_years + 1) next_year').
    + rewrite S_INR. do 2 f_equal. lra.
    + now apply next_year_of_after.
    + repeat split; lia.
    + assumption.
    + now rewrite Im, Id.
Qed.

(** Off 29 February and below the last year of the calendar, dates a whole
    number of calendar years apart are that number of years apart. *)
Lemma years_apart_whole_years (n : nat) (a b : date) :
  years_after n a b ->
  (year b < 9999)%Z -> ~ (month a = 2%Z /\ day a = 29%Z) ->
  years_apart a b = Ok (INR n).
Proof.
  intros Hn Hmax Hleap. pose proof Hn as (Ny & Nm & Nd).
  unfold years_apart.
  assert (date_gt a b = false) as ->.
  { unfold date_gt, date_cmp.
    destruct (year a ?= year b)%Z eqn:C; try reflexivity.
    - now rewrite Nm, Nd, !Z.compare_refl.
    - apply Z.compare_gt_iff in C. lia. }
  destruct (next_year_of_defined a) as [next_year Hnext]; [lia|assumption|].
  rewrite Hnext. cbn [bind].
  rewrite (years_loop_whole n b a 0 next_year); try assumption;
    [|now apply next_year_of_after].
  cbn [bind]. unfold date_sub_days. rewrite Z.sub_diag. f_equal. lra.
Qed.

(** A run whose earlier date is 29 February stops at the first look-ahead. *)
Lemma years_apart_leap_day (a b : date) :
  month (earlier a b) = 2%Z -> day (earlier a b) = 29%Z ->
  years_apart a b = Raise ValueError.
Proof.
  intros Hm Hd. rewrite years_apart_sorted.
  now rewrite (next_year_of_leap_day _ Hm Hd).
Qed.

Lemma years_apart_nonneg (a b : date) (t : R) :
  years_apart a b = Ok t -> 0 <= t.
Proof.
  intros H. apply years_apart_returns in H.
  destruct H as (k & cursor & -> & _ & _ & _ & Hdays & _).
  apply IZR_le in Hdays. pose proof (pos_INR k). lra.
Qed.

(** Distinct dates are a positive time apart. *)
Lemma years_apart_positive (a b : date) (t : R) :
  date_lt a b = true -> years_apart a b = Ok t -> 0 < t.
Proof.
  intros Hlt H. apply years_apart_returns in H.
  assert (date_gt a b = false) as G
    by (unfold date_lt, date_gt in *; now destruct (date_cmp a b)).
  unfold earlier, later in H. rewrite G in H.
  destruct H as (k & cursor & -> & Hy & Hm & Hd & Hdays & _).
  apply date_lt_toordinal in Hlt.
  destruct k as [|k].
  - assert (cursor = a) as -> by (apply date_ext; simpl in Hy; lia).
    assert (0 < date_sub_days b a)%Z as P by (unfold date_sub_days; lia).
    apply IZR_lt in P. cbn [INR]. lra.
  - apply IZR_le in Hdays. pose proof (pos_INR k). rewrite S_INR. lra.
Qed.

(** ** The statistics on their domain, over the reals *)

Lemma truediv_nonzero (x y : R) : y <> 0 -> truediv x y = Ok (x / y).
Proof. intros H. unfold truediv. now destruct (Req_dec_T y 0). Qed.

Lemma math_log_positive (x : R) : 0 < x -> math_log x = Ok (ln x).
Proof. intros H. unfold math_log. now destruct (Rlt_dec 0 x). Qed.

Lemma math_sqrt_nonneg (x : R) : 0 <= x -> math_sqrt x = Ok (sqrt x).
Proof. intros H. unfold math_sqrt. now destruct (Rle_dec 0 x). Qed.

(** Where [fx_option_d1] returns over the reals, and what. *)
Lemma fx_option_d1_returns
  (strike term spot volatility domestic_rate foreign_rate : R) :
  strike <> 0 -> 0 < spot / strike -> 0 < term -> volatility <> 0 ->
  fx_option_d1 strike term spot volatility domestic_rate foreign_rate =
  Ok ((ln (spot / strike)
       + (domestic_rate - foreign_rate + volatility ^ 2 / 2) * term)
      / (volatility * sqrt term)).
Proof.
  intros Hk Hs Ht Hv. unfold fx_option_d1.
  rewrite truediv_nonzero by assumption. cbn [bind].
  rewrite math_log_positive by assumption. cbn [bind].
  rewrite math_sqrt_nonneg by lra. cbn [bind].
  apply truediv_nonzero.
  apply Rmult_integral_contrapositive_currified; [assumption|].
  apply Rgt_not_eq. now apply sqrt_lt_R0.
Qed.

Lemma date_le_year (a b : date) :
  date_le a b = true -> (year a <= year b)%Z.
Proof.
  unfold date_le, date_cmp.
  destruct (year a ?= year b)%Z eqn:C; try discriminate; intros _.
  - apply Z.compare_eq in C. lia.
  - rewrite Z.compare_lt_iff in C. lia.
Qed.

Lemma cauchy_cdf_symmetric (x : R) : cauchy_cdf x + cauchy_cdf (- x) = 1.
Proof. unfold cauchy_cdf. rewrite atan_opp. field. apply PI_neq0. Qed.

(** ** The doctests of [years_apart] *)

Example years_apart_1959_1960 :
  years_apart date_1959_05_03 date_1960_05_03 = Ok 1.
Proof.
  assert (years_apart date_1959_05_03 date_1960_05_03
          = Ok (0 + 1 + IZR 0 / 365)) as -> by reflexivity.
  f_equal. lra.
Qed.

Example years_apart_reversed :
  years_apart date_2019_07_01 date_2019_04_01 = Ok (91 / 365).
Proof.
  assert (years_apart date_2019_07_01 date_2019_04_01
          = Ok (0 + IZR 91 / 365)) as -> by reflexivity.
  f_equal. lra.
Qed.

Example years_apart_2019 :
  years_apart date_2019_04_01 date_2019_07_01 = Ok (91 / 365).
Proof.
  assert (years_apart date_2019_04_01 date_2019_07_01
          = Ok (0 + IZR 91 / 365)) as -> by reflexivity.
  f_equal. lra.
Qed.

(** The look-ahead date of a cursor in the year 9999 is not a date either. *)
Example years_apart_last_year :
  years_apart date_9998_01_01 date_9999_01_01 = Raise ValueError.
Proof. reflexivity. Qed.

Example years_apart_leap_day_itself :
  years_apart date_2004_02_29 date_2004_02_29 = Raise ValueError.
Proof. reflexivity. Qed.

(** * The claims *)

(** ** C1: the pricer is the prescribed composition *)


(** ** C3: the d1 statistic in binary64 *)

(** C3 (counterexample).  With strike [2^600], spot [2^-600], term 1 and
    volatility 1, all positive binary64 numbers, [spot / strike] rounds to
    0 and [fx_option_d1] raises [ValueError] with every C library. *)
Lemma fx_option_d1_underflow_raises :
  (0 < Binary64.pow2 600 /\ 0 < Binary64.pow2 (-600) /\ 0 < 1) /\
  (Binary64.binary64 (Binary64.pow2 600) /\
   Binary64.binary64 (Binary64.pow2 (-600)) /\ Binary64.binary64 1) /\
  forall (rd : Binary64.rounding) (lm : Binary64.libm),
    Binary64.fx_option_d1 rd lm
      (Binary64.Finite (Binary64.pow2 600)) (Binary64.Finite 1)
      (Binary64.Finite (Binary64.pow2 (-600))) (Binary64.Finite 1)
      (Binary64.Finite 0) (Binary64.Finite 0)
    = Raise ValueError.
Proof.
  split; [|split].
  - pose proof (Binary64.pow2_pos 600). pose proof (Binary64.pow2_pos (-600)).
    lra.
  - repeat split; try (apply Binary64.binary64_pow2; lia).
    apply (Binary64.binary64_integer 1). reflexivity.
  - intros rd lm. unfold Binary64.fx_option_d1, Binary64.truediv.
    pose proof (Binary64.pow2_pos 600) as P.
    destruct (Req_dec_T (Binary64.pow2 600) 0) as [E|_]; [lra|].
    cbn [bind Binary64.fdiv].
    assert (Binary64.pow2 (-600) / Binary64.pow2 600 = Binary64.pow2 (-1200))
      as ->.
    { pose proof (Binary64.pow2_add (-600) 600) as A.
      change (-600 + 600)%Z with 0%Z in A. rewrite Binary64.pow2_0 in A.
      replace (-1200)%Z with (-600 + -600)%Z by reflexivity.
      rewrite Binary64.pow2_add.
      apply Rmult_eq_reg_r with (Binary64.pow2 600); [|lra].
      unfold Rdiv. rewrite Rmult_assoc, Rinv_l by lra. nra. }
    rewrite Binary64.round_underflow.
    + unfold Binary64.math_log. destruct (Rlt_dec 0 0); [lra|reflexivity].
    + rewrite Rabs_pos_eq by (left; apply Binary64.pow2_pos).
      apply Binary64.pow2_lt. lia.
Qed.

(** With the volatility [2^600] the square overflows and [fx_option_d1]
    raises [OverflowError] with the correctly rounded C library. *)
Lemma fx_option_d1_overflow_raises (rd : Binary64.rounding) :
  Binary64.fx_option_d1 rd (Binary64.rounded_libm rd)
    (Binary64.Finite 1) (Binary64.Finite 1) (Binary64.Finite 1)
    (Binary64.Finite (Binary64.pow2 600))
    (Binary64.Finite 0) (Binary64.Finite 0)
  = Raise OverflowError.
Proof.
  pose proof (Binary64.pow2_lt 0 600 ltac:(lia)) as P.
  rewrite Binary64.pow2_0 in P.
  unfold Binary64.fx_option_d1, Binary64.truediv.
  destruct (Req_dec_T 1 0) as [E|_]; [lra|]. cbn [bind Binary64.fdiv].
  replace (1 / 1) with (IZR 1) by lra.
  rewrite Binary64.round_id
    by (apply (Binary64.binary64_integer 1); reflexivity).
  unfold Binary64.math_log. destruct (Rlt_dec 0 1) as [_|N]; [|lra].
  cbn [Binary64.libm_log Binary64.rounded_libm].
  destruct (Rlt_dec 0 1) as [_|N]; [|lra].
  rewrite ln_1, (Binary64.round_id rd 0 Binary64.binary64_0).
  cbn [Binary64.is_nan Binary64.is_inf orb bind].
  unfold Binary64.float_pow2.
  destruct (Req_dec_T (Binary64.pow2 600) 0) as [E|_]; [lra|].
  rewrite Rabs_pos_eq by lra.
  destruct (Req_dec_T (Binary64.pow2 600) 1) as [E|_]; [lra|].
  cbn [Binary64.libm_pow Binary64.rounded_libm].
  destruct (Rlt_dec 0 (Binary64.pow2 600)) as [_|N]; [|lra].
  replace 2 with (INR 2) by (simpl; lra).
  rewrite Rpower_pow by lra. rewrite Binary64.pow2_pow.
  change (600 * Z.of_nat 2)%Z with 1200%Z.
  unfold Binary64.round.
  destruct (Rle_dec Binary64.overflow_threshold (Binary64.pow2 1200))
    as [_|N]; [reflexivity|].
  exfalso. apply N. unfold Binary64.overflow_threshold.
  pose proof (Binary64.pow2_le 1024 1200 ltac:(lia)).
  pose proof (Binary64.pow2_pos 970). lra.
Qed.

(** C3 (amended).  For positive strike, spot, term (a binary64 number) and
    volatility, with a C library whose [log] is finite on the positive
    binary64 numbers, [fx_option_d1] raises [ValueError] when
    [spot / strike] rounds to 0; otherwise [OverflowError] when
    [volatility ** 2] overflows; otherwise [ZeroDivisionError] when
    [volatility * sqrt(term)] rounds to 0; and otherwise it returns
    [(ln(spot/strike) + (domestic_rate - foreign_rate + volatility^2/2) *
    term) / (volatility * sqrt(term))] with every operation rounded to
    binary64. *)
Theorem fx_option_d1_binary64
  (rd : Binary64.rounding) (lm : Binary64.libm)
  (strike term spot volatility : R)
  (domestic_rate foreign_rate : Binary64.float) :
  Binary64.log_finite lm -> Binary64.binary64 term ->
  0 < strike -> 0 < spot -> 0 < term -> 0 < volatility ->
  let quotient :=
    Binary64.fdiv rd (Binary64.Finite spot) (Binary64.Finite strike) in
  let denominator :=
    Binary64.fmul rd (Binary64.Finite volatility)
      (Binary64.fsqrt rd (Binary64.Finite term)) in
  let d1 :=
    Binary64.fx_option_d1 rd lm (Binary64.Finite strike)
      (Binary64.Finite term) (Binary64.Finite spot)
      (Binary64.Finite volatility) domestic_rate foreign_rate in
  (quotient = Binary64.Finite 0 -> d1 = Raise ValueError) /\
  (quotient <> Binary64.Finite 0 ->
   Binary64.float_pow2 lm (Binary64.Finite volatility) = Raise OverflowError ->
   d1 = Raise OverflowError) /\
  (quotient <> Binary64.Finite 0 ->
   forall square,
     Binary64.float_pow2 lm (Binary64.Finite volatility) = Ok square ->
     (denominator = Binary64.Finite 0 -> d1 = Raise ZeroDivisionError) /\
     (denominator <> Binary64.Finite 0 ->
      exists logarithm,
        Binary64.math_log lm quotient = Ok logarithm /\
        d1 = Ok (Binary64.fdiv rd
                   (Binary64.fadd rd logarithm
                      (Binary64.fmul rd
                         (Binary64.fadd rd
                            (Binary64.fsub rd domestic_rate foreign_rate)
                            (Binary64.fdiv rd square (Binary64.Finite 2)))
                         (Binary64.Finite term)))
                   denominator))).
Proof.
  intros Hlaw Fterm Hk Hs Ht Hv quotient denominator d1.
  assert (d1 =
          (logarithm <- Binary64.math_log lm quotient ;;
           square <- Binary64.float_pow2 lm (Binary64.Finite volatility) ;;
           Binary64.truediv rd
             (Binary64.fadd rd logarithm
                (Binary64.fmul rd
                   (Binary64.fadd rd
                      (Binary64.fsub rd domestic_rate foreign_rate)
                      (Binary64.fdiv rd square (Binary64.Finite 2)))
                   (Binary64.Finite term)))
             denominator)) as Hd1.
  { unfold d1, Binary64.fx_option_d1, Binary64.truediv at 1.
    destruct (Req_dec_T strike 0) as [E|_]; [lra|]. cbn [bind].
    fold quotient. destruct (Binary64.math_log lm quotient); [|reflexivity].
    cbn [bind].
    destruct (Binary64.float_pow2 lm (Binary64.Finite volatility));
      [|reflexivity].
    cbn [bind]. unfold Binary64.math_sqrt.
    rewrite (Binary64.fsqrt_finite rd term Fterm) by lra.
    cbn [Binary64.is_nan Binary64.is_inf andb bind].
    unfold denominator.
    rewrite (Binary64.fsqrt_finite rd term Fterm) by lra. reflexivity. }
  assert (quotient <> Binary64.Finite 0 ->
          exists logarithm, Binary64.math_log lm quotient = Ok logarithm)
    as Hlog.
  { intros Hq. unfold quotient in *. cbn [Binary64.fdiv] in *.
    destruct (Binary64.round_nonneg_cases rd (spot / strike))
      as [(q & Eq & Hq0 & Fq)|Eq].
    - left. now apply Rdiv_lt_0_compat.
    - rewrite Eq in *. unfold Binary64.math_log.
      destruct (Rlt_dec 0 q) as [Hpos|N].
      + destruct (Hlaw q Fq Hpos) as (l & ->). eexists. reflexivity.
      + exfalso. apply Hq. f_equal. lra.
    - rewrite Eq. eexists. reflexivity. }
  split; [|split].
  - intros Hq. rewrite Hd1, Hq. unfold Binary64.math_log.
    destruct (Rlt_dec 0 0); [lra|reflexivity].
  - intros Hq Hpow. destruct (Hlog Hq) as (l & El).
    rewrite Hd1, El, Hpow. reflexivity.
  - intros Hq square Hpow. destruct (Hlog Hq) as (l & El).
    rewrite Hd1, El, Hpow. cbn [bind]. split.
    + intros ->. unfold Binary64.truediv.
      destruct (Req_dec_T 0 0); [reflexivity|lra].
    + intros Hden. exists l. split; [reflexivity|].
      unfold Binary64.truediv. destruct denominator as [y| | |];
        try reflexivity.
      destruct (Req_dec_T y 0) as [->|]; [contradiction|reflexivity].
Qed.

Lemma fx_option_d1_binary64_witness :
  exists logarithm,
    Binary64.math_log (Binary64.rounded_libm Binary64.nearest_rounding)
      (Binary64.fdiv Binary64.nearest_rounding
         (Binary64.Finite 8) (Binary64.Finite 2)) = Ok logarithm /\
    Binary64.fx_option_d1 Binary64.nearest_rounding
      (Binary64.rounded_libm Binary64.nearest_rounding)
      (Binary64.Finite 2) (Binary64.Finite 4) (Binary64.Finite 8)
      (Binary64.Finite 1) (Binary64.Finite 0) (Binary64.Finite 0)
    = Ok (Binary64.fdiv Binary64.nearest_rounding
            (Binary64.fadd Binary64.nearest_rounding logarithm
               (Binary64.fmul Binary64.nearest_rounding
                  (Binary64.fadd Binary64.nearest_rounding
                     (Binary64.fsub Binary64.nearest_rounding
                        (Binary64.Finite 0) (Binary64.Finite 0))
                     (Binary64.fdiv Binary64.nearest_rounding
                        (Binary64.Finite 1) (Binary64.Finite 2)))
                  (Binary64.Finite 4)))
            (Binary64.fmul Binary64.nearest_rounding (Binary64.Finite 1)
               (Binary64.fsqrt Binary64.nearest_rounding
                  (Binary64.Finite 4)))).
Proof.
  assert (forall m : Z, (Z.abs m < 2 ^ 53)%Z ->
            Binary64.round Binary64.nearest_rounding (IZR m)
            = Binary64.Finite (IZR m)) as Hint
    by (intros m Hm; now apply Binary64.round_id, Binary64.binary64_integer).
  assert (Binary64.binary64 4) as F4
    by (apply (Binary64.binary64_integer 4); reflexivity).
  destruct (fx_option_d1_binary64 Binary64.nearest_rounding
              (Binary64.rounded_libm Binary64.nearest_rounding)
              2 4 8 1 (Binary64.Finite 0) (Binary64.Finite 0)
              (Binary64.rounded_libm_log_finite _) F4
              ltac:(lra) ltac:(lra) ltac:(lra) ltac:(lra))
    as (_ & _ & H).
  cbv zeta in H.
  assert (Binary64.fdiv Binary64.nearest_rounding (Binary64.Finite 8)
            (Binary64.Finite 2) <> Binary64.Finite 0) as Hq.
  { cbn [Binary64.fdiv]. replace (8 / 2) with (IZR 4) by lra.
    rewrite Hint by reflexivity. intros E. injection E. lra. }
  assert (Binary64.float_pow2
            (Binary64.rounded_libm Binary64.nearest_rounding)
            (Binary64.Finite 1) = Ok (Binary64.Finite 1)) as Hp.
  { unfold Binary64.float_pow2.
    destruct (Req_dec_T 1 0); [lra|].
    destruct (Req_dec_T (Rabs 1) 1) as [|N]; [reflexivity|].
    exfalso. apply N. apply Rabs_pos_eq. lra. }
  apply (proj2 (H Hq _ Hp)).
  rewrite (Binary64.fsqrt_finite _ 4 F4) by lra.
  replace (sqrt 4) with (IZR 2)
    by (replace 4 with (2 * 2) by lra; rewrite sqrt_square; lra).
  rewrite Binary64.rnd_id
    by (apply Binary64.binary64_integer; reflexivity).
  cbn [Binary64.fmul]. replace (1 * 2) with (IZR 2) by lra.
  rewrite Hint by reflexivity. intros E. injection E. lra.
Defined.

(** ** C8, C9: the discount factor in binary64 *)

Lemma math_exp_returns (lm : Binary64.libm) (x f : Binary64.float) :
  Binary64.math_exp lm x = Ok f -> f = Binary64.libm_exp lm x.
Proof.
  unfold Binary64.math_exp.
  destruct (Binary64.is_nan (Binary64.libm_exp lm x)
            && negb (Binary64.is_nan x)); [discriminate|].
  destruct (Binary64.is_inf (Binary64.libm_exp lm x)
            && Binary64.is_finite x); [discriminate|].
  congruence.
Qed.

(** C8 (counterexample).  [discount(-1000.0, 1.0)] raises [OverflowError]
    with every C library whose [exp] overflows from 1000 on, the correctly
    rounded one among them. *)
Lemma discount_overflow_raises :
  Binary64.binary64 (-1000) /\ Binary64.binary64 1 /\
  (forall (rd : Binary64.rounding) (lm : Binary64.libm),
      Binary64.exp_overflows lm ->
      Binary64.discount rd lm (Binary64.Finite (-1000)) (Binary64.Finite 1)
      = Raise OverflowError) /\
  (forall rd : Binary64.rounding,
      Binary64.discount rd (Binary64.rounded_libm rd)
        (Binary64.Finite (-1000)) (Binary64.Finite 1)
      = Raise OverflowError).
Proof.
  assert (forall (rd : Binary64.rounding) (lm : Binary64.libm),
             Binary64.exp_overflows lm ->
             Binary64.discount rd lm (Binary64.Finite (-1000))
               (Binary64.Finite 1)
             = Raise OverflowError) as G.
  { intros rd lm Hlaw. unfold Binary64.discount.
    cbn [Binary64.fneg Binary64.fmul].
    replace (- -1000 * 1) with 1000 by lra.
    rewrite Binary64.round_id
      by (apply (Binary64.binary64_integer 1000); reflexivity).
    unfold Binary64.math_exp. rewrite Hlaw by lra. reflexivity. }
  split; [apply (Binary64.binary64_integer (-1000)); reflexivity|].
  split; [apply (Binary64.binary64_integer 1); reflexivity|].
  split; [exact G|].
  intros rd. apply G, Binary64.rounded_libm_exp_overflows.
Qed.

(** C8 (amended).  [discount(rate, term)] is the C library's [exp] applied
    to the binary64 product [-rate * term]: it returns that result, except
    that an infinity from a finite product is an [OverflowError] and a NaN
    from a number a [ValueError]; with a library whose [exp] is 1 at 0,
    [discount(rate, 0.0)] is 1.0 for every finite rate.  With the correctly
    rounded library and finite arguments, it returns [inf] or 0.0 when the
    product overflows, raises [OverflowError] when the exponential of the
    rounded product overflows, and otherwise returns that exponential
    rounded: the real [exp(-rate * term)] rounded twice. *)
Theorem discount_binary64 (rd : Binary64.rounding) (lm : Binary64.libm) :
  (forall rate term : Binary64.float,
      let product := Binary64.fmul rd (Binary64.fneg rate) term in
      match Binary64.discount rd lm rate term with
      | Ok f => f = Binary64.libm_exp lm product
      | Raise OverflowError =>
          Binary64.is_inf (Binary64.libm_exp lm product) = true /\
          Binary64.is_finite product = true
      | Raise ValueError =>
          Binary64.is_nan (Binary64.libm_exp lm product) = true /\
          Binary64.is_nan product = false
      | Raise ZeroDivisionError => False
      end) /\
  (Binary64.exp_of_zero lm ->
   forall rate : R,
     Binary64.discount rd lm (Binary64.Finite rate) (Binary64.Finite 0)
     = Ok (Binary64.Finite 1)) /\
  (forall rate term : R,
      let product := - rate * term in
      Binary64.discount rd (Binary64.rounded_libm rd)
        (Binary64.Finite rate) (Binary64.Finite term) =
      if Rle_dec Binary64.overflow_threshold product
      then Ok Binary64.PosInf
      else if Rle_dec product (- Binary64.overflow_threshold)
      then Ok (Binary64.Finite 0)
      else if Rle_dec Binary64.overflow_threshold
                (exp (Binary64.rnd rd product))
      then Raise OverflowError
      else Ok (Binary64.Finite
                 (Binary64.rnd rd (exp (Binary64.rnd rd product))))).
Proof.
  split; [|split].
  - intros rate term product. unfold Binary64.discount, Binary64.math_exp.
    fold product.
    destruct (Binary64.is_nan (Binary64.libm_exp lm product)) eqn:N;
      destruct (Binary64.is_nan product) eqn:P; simpl;
      try (split; reflexivity || assumption);
      destruct (Binary64.is_inf (Binary64.libm_exp lm product)) eqn:I;
      destruct (Binary64.is_finite product) eqn:F; simpl;
      try reflexivity; try (split; reflexivity || assumption).
  - intros Hlaw rate. unfold Binary64.discount. simpl.
    rewrite Rmult_0_r, (Binary64.round_id rd 0 Binary64.binary64_0).
    unfold Binary64.math_exp. rewrite Hlaw. reflexivity.
  - intros rate term product. unfold Binary64.discount.
    cbn [Binary64.fneg Binary64.fmul]. fold product.
    pose proof Binary64.overflow_threshold_large as T.
    rewrite Binary64.pow2_53 in T.
    unfold Binary64.round at 1.
    destruct (Rle_dec Binary64.overflow_threshold product); [reflexivity|].
    destruct (Rle_dec product (- Binary64.overflow_threshold));
      [reflexivity|].
    unfold Binary64.math_exp. cbn [Binary64.libm_exp Binary64.rounded_libm].
    unfold Binary64.round.
    destruct (Rle_dec Binary64.overflow_threshold
                (exp (Binary64.rnd rd product))); [reflexivity|].
    destruct (Rle_dec (exp (Binary64.rnd rd product))
                (- Binary64.overflow_threshold)) as [L|_]; [|reflexivity].
    pose proof (exp_pos (Binary64.rnd rd product)). lra.
Qed.

Lemma discount_binary64_witness :
  Binary64.discount Binary64.nearest_rounding
    (Binary64.rounded_libm Binary64.nearest_rounding)
    (Binary64.Finite (3 / 100)) (Binary64.Finite 0)
  = Ok (Binary64.Finite 1).
Proof.
  apply (proj1 (proj2 (discount_binary64 _ _))).
  apply Binary64.rounded_libm_exp_of_zero.
Defined.

(** C9 (counterexample).  For the rate [2^-600] and the terms 0 and
    [2^-600], both binary64 products [-rate * term] are 0, so the two
    calls of [discount] have the same outcome with every C library, and
    both return 1.0 with the correctly rounded one: the first factor is not
    greater than the second. *)
Lemma discount_not_strictly_monotone :
  0 < Binary64.pow2 (-600) /\
  Binary64.binary64 (Binary64.pow2 (-600)) /\ Binary64.binary64 0 /\
  (forall (rd : Binary64.rounding) (lm : Binary64.libm),
      Binary64.discount rd lm (Binary64.Finite (Binary64.pow2 (-600)))
        (Binary64.Finite 0)
      = Binary64.discount rd lm (Binary64.Finite (Binary64.pow2 (-600)))
          (Binary64.Finite (Binary64.pow2 (-600)))) /\
  (forall rd : Binary64.rounding,
      Binary64.discount rd (Binary64.rounded_libm rd)
        (Binary64.Finite (Binary64.pow2 (-600)))
        (Binary64.Finite (Binary64.pow2 (-600)))
      = Ok (Binary64.Finite 1)).
Proof.
  assert (forall rd : Binary64.rounding,
             Binary64.fmul rd
               (Binary64.fneg (Binary64.Finite (Binary64.pow2 (-600))))
               (Binary64.Finite (Binary64.pow2 (-600)))
             = Binary64.Finite 0) as U.
  { intros rd. cbn [Binary64.fneg Binary64.fmul].
    apply Binary64.round_underflow.
    rewrite <- Ropp_mult_distr_l, Rabs_Ropp, <- Binary64.pow2_add.
    rewrite Rabs_pos_eq by (left; apply Binary64.pow2_pos).
    apply Binary64.pow2_lt. lia. }
  split; [apply Binary64.pow2_pos|].
  split; [apply Binary64.binary64_pow2; lia|].
  split; [apply Binary64.binary64_0|].
  split.
  - intros rd lm. unfold Binary64.discount. rewrite U.
    cbn [Binary64.fneg Binary64.fmul].
    now rewrite Rmult_0_r, (Binary64.round_id rd 0 Binary64.binary64_0).
  - intros rd. unfold Binary64.discount. rewrite U.
    unfold Binary64.math_exp.
    rewrite (Binary64.rounded_libm_exp_of_zero rd). reflexivity.
Qed.

(** C9 (amended).  With a C library whose [exp] keeps the order, for a
    positive finite rate and finite terms [t1 < t2] the factor for [t1] is
    at least the factor for [t2] whenever both calls return; for a negative
    rate it is at most that factor.  The inequalities are not strict. *)
Theorem discount_monotone_binary64
  (rd : Binary64.rounding) (lm : Binary64.libm)
  (rate t1 t2 : R) (f1 f2 : Binary64.float) :
  Binary64.exp_monotone lm ->
  t1 < t2 ->
  Binary64.discount rd lm (Binary64.Finite rate) (Binary64.Finite t1)
  = Ok f1 ->
  Binary64.discount rd lm (Binary64.Finite rate) (Binary64.Finite t2)
  = Ok f2 ->
  (0 < rate -> Binary64.fle f2 f1) /\ (rate < 0 -> Binary64.fle f1 f2).
Proof.
  intros Hlaw Ht H1 H2. unfold Binary64.discount in H1, H2.
  apply math_exp_returns in H1, H2. subst f1 f2. simpl.
  split; intros Hr; apply Hlaw; simpl; apply Binary64.round_monotone; nra.
Qed.

Lemma discount_monotone_binary64_witness :
  Binary64.fle
    (Binary64.Finite (Binary64.rnd Binary64.nearest_rounding
                        (exp (- (1 / 2) * 2))))
    (Binary64.Finite (Binary64.rnd Binary64.nearest_rounding
                        (exp (- (1 / 2) * 1)))).
Proof.
  assert (forall x, x <= 0 -> exp x < Binary64.overflow_threshold) as Hexp.
  { intros x Hx. pose proof Binary64.overflow_threshold_large as T.
    rewrite Binary64.pow2_53 in T.
    assert (exp x <= 1); [|lra].
    rewrite <- exp_0. destruct Hx as [Hx| ->]; [|lra].
    left. now apply exp_increasing. }
  refine (proj1 (discount_monotone_binary64 Binary64.nearest_rounding
                   (Binary64.rounded_libm Binary64.nearest_rounding)
                   (1 / 2) 1 2 _ _ _ _ _ _) _).
  - apply Binary64.rounded_libm_exp_monotone.
  - lra.
  - apply Binary64.discount_rounded_libm; [|apply Hexp; lra].
    replace (- (1 / 2) * 1) with (- Binary64.pow2 (-1))
      by (unfold Binary64.pow2; simpl; lra).
    apply Binary64.binary64_opp, Binary64.binary64_pow2. lia.
  - apply Binary64.discount_rounded_libm; [|apply Hexp; lra].
    replace (- (1 / 2) * 2) with (IZR (-1)) by lra.
    apply Binary64.binary64_integer. reflexivity.
  - lra.
Defined.

(** ** C6: symmetry of the year fraction *)

(** C6.  [years_apart] gives the same result, value or exception, in both
    argument orders: either order is the run on the earlier date first and
    the later date second. *)
Theorem years_apart_symmetric (a b : date) :
  years_apart a b = years_apart b a /\
  years_apart a b = years_apart (earlier a b) (later a b) /\
  date_le (earlier a b) (later a b) = true.
Proof.
  split; [|split].
  - rewrite !years_apart_sorted.
    destruct (earlier_later_swap a b) as [-> ->]. reflexivity.
  - assert (date_gt (earlier a b) (later a b) = false) as G
      by (rewrite date_gt_le, earlier_le_later; reflexivity).
    rewrite (years_apart_sorted a b). unfold years_apart. now rewrite G.
  - apply earlier_le_later.
Qed.

(** ** C2: put-call parity *)

(** Parity in exact arithmetic, for dates on which [years_apart]
    returns. *)

Section Parity.

Variable norm_cdf : R -> R.
Hypothesis norm_cdf_symmetric : forall x, norm_cdf x + norm_cdf (- x) = 1.

(** For positive spot, strike and volatility and a valuation date
    strictly before the expiration date, with [t] the year fraction between
    the two dates, the call price minus the put price is
    [spot * discount foreign_rate t - strike * discount domestic_rate t]. *)
Theorem put_call_parity (strike : R) (expiration_date valuation_date : date)
  (spot volatility domestic_rate foreign_rate t : R) :
  0 < spot -> 0 < strike -> 0 < volatility ->
  date_lt valuation_date expiration_date = true ->
  years_apart valuation_date expiration_date = Ok t ->
  exists call_price put_price : R,
    fx_option_price norm_cdf true strike expiration_date valuation_date
      spot volatility domestic_rate foreign_rate = Ok call_price /\
    fx_option_price norm_cdf false strike expiration_date valuation_date
      spot volatility domestic_rate foreign_rate = Ok put_price /\
    call_price - put_price =
    spot * discount foreign_rate t - strike * discount domestic_rate t.
Proof.
  intros Hs Hk Hv Hlt Ht.
  pose proof (years_apart_positive _ _ _ Hlt Ht) as Hpos.
  unfold fx_option_price. rewrite Ht. cbn [bind].
  rewrite fx_option_d1_returns;
    [|lra|now apply Rdiv_lt_0_compat|assumption|lra].
  cbn [bind]. unfold fx_option_d2.
  rewrite math_sqrt_nonneg by lra. cbn [bind].
  do 2 eexists. split; [reflexivity|]. split; [reflexivity|].
  set (d1 := (ln (spot / strike)
              + (domestic_rate - foreign_rate + volatility ^ 2 / 2) * t)
             / (volatility * sqrt t)).
  set (d2 := d1 - volatility * sqrt t).
  pose proof (norm_cdf_symmetric d1) as S1.
  pose proof (norm_cdf_symmetric d2) as S2.
  generalize dependent (norm_cdf d1). generalize dependent (norm_cdf d2).
  generalize (norm_cdf (- d1)) (norm_cdf (- d2)).
  generalize (discount foreign_rate t) (discount domestic_rate t).
  intros. nra.
Qed.

End Parity.

Lemma put_call_parity_witness :
  exists call_price put_price : R,
    fx_option_price cauchy_cdf true 152 date_2019_07_01 date_2019_04_01
      150 (13 / 100) (3 / 100) (4 / 100) = Ok call_price /\
    fx_option_price cauchy_cdf false 152 date_2019_07_01 date_2019_04_01
      150 (13 / 100) (3 / 100) (4 / 100) = Ok put_price /\
    call_price - put_price =
    150 * discount (4 / 100) (91 / 365) - 152 * discount (3 / 100) (91 / 365).
Proof.
  apply (put_call_parity cauchy_cdf cauchy_cdf_symmetric);
    try lra; try reflexivity.
  apply years_apart_2019.
Defined.

(** C2.  With the valuation date 2004-02-29, strictly before the expiration
    date 2004-03-01, the pricer raises [ValueError] for calls and puts,
    whatever the other arguments: there are no two prices to compare. *)
Theorem fx_option_price_leap_day_valuation :
  date_lt date_2004_02_29 date_2004_03_01 = true /\
  forall (norm_cdf : R -> R) (call : bool)
         (strike spot volatility domestic_rate foreign_rate : R),
    fx_option_price norm_cdf call strike date_2004_03_01 date_2004_02_29
      spot volatility domestic_rate foreign_rate = Raise ValueError.
Proof.
  split; [reflexivity|]. intros. unfold fx_option_price.
  now rewrite (years_apart_leap_day date_2004_02_29 date_2004_03_01).
Qed.

(** ** C7: the final partial year is divided by 365 *)

(** C7.  A returned year fraction is a whole number [k] of calendar years
    plus the days left from the cursor (the earlier date moved [k] years
    forward) to the later date, divided by exactly 365; the days left may
    number 365, when a leap day falls among them.  From 2004-01-01 to
    2005-01-02 the result is [1 + 1/365], which is 1.0027397260273974 to
    sixteen places, although 2004 is a leap year. *)
Theorem years_apart_final_year_365 :
  (forall (a b : date) (t : R),
      years_apart a b = Ok t ->
      exists (k : nat) (cursor : date),
        years_after k (earlier a b) cursor /\
        (0 <= date_sub_days (later a b) cursor <= 365)%Z /\
        t = INR k + IZR (date_sub_days (later a b) cursor) / 365) /\
  years_apart date_2004_01_01 date_2005_01_02 = Ok (1 + 1 / 365) /\
  Rabs (1 + 1 / 365 - 1.0027397260273974) < 1 / 10 ^ 15.
Proof.
  split; [|split].
  - intros a b t H. apply years_apart_returns in H.
    destruct H as (k & cursor & Ht & Hy & Hm & Hd & Hdays).
    exists k, cursor. repeat split; try assumption; lia.
  - assert (years_apart date_2004_01_01 date_2005_01_02
            = Ok (0 + 1 + IZR 1 / 365)) as -> by reflexivity.
    f_equal. lra.
  - apply Rabs_def1; lra.
Qed.

Lemma years_apart_final_year_365_witness :
  exists (k : nat) (cursor : date),
    years_after k (earlier date_2004_01_01 date_2005_01_02) cursor /\
    (0 <= date_sub_days (later date_2004_01_01 date_2005_01_02) cursor
     <= 365)%Z /\
    1 + 1 / 365 =
    INR k
    + IZR (date_sub_days (later date_2004_01_01 date_2005_01_02) cursor) / 365.
Proof.
  destruct years_apart_final_year_365 as (general & example & _).
  exact (general _ _ _ example).
Defined.

(** ** C10: the loop terminates *)

Lemma years_loop_defined (date1 date2 : date) :
  (forall (k : nat) (cursor : date),
      years_after k date1 cursor -> date_le cursor date2 = true ->
      exists next, next_year_of cursor = Ok next) ->
  forall next_year,
    (exists k, years_after k date1 next_year) ->
    forall (cursor : date) (num_years : R),
    exists r, years_loop date2 cursor num_years next_year = Ok r.
Proof.
  intros Hdef.
  induction next_year as [next_year IH] using (years_loop_ind date2).
  intros (k & Hk) cursor num_years. rewrite years_loop_eq.
  destruct (date_le next_year date2) eqn:Hle; [|eexists; reflexivity].
  destruct (Hdef k next_year Hk Hle) as (next_year' & Hn).
  rewrite Hn. cbn [bind]. apply (IH next_year' eq_refl Hn).
  exists (S k). apply next_year_of_after in Hn.
  destruct Hk as (Ky & Km & Kd), Hn as (Ny & Nm & Nd).
  repeat split; try congruence. lia.
Qed.

(** C10.  Every run of the while loop has an outcome, the one [years_loop]
    computes by recursion on the day distance to the later date, and no
    other.  An iteration moves the cursor one calendar year forward to a
    date still on or before the later date, so the day distance from the
    cursor to the later date stays non-negative and strictly decreases.
    Where the year+1 dates constructed along the run exist, [years_apart]
    returns a value. *)
Theorem years_loop_terminates :
  (forall (date2 date1 : date) (num_years : R) (next_year : date),
      exists r,
        years_loop date2 date1 num_years next_year = r /\
        while_loop date2 date1 num_years next_year r /\
        forall r', while_loop date2 date1 num_years next_year r' -> r' = r) /\
  (forall date2 date1 next_year next_year' : date,
      year_after date1 next_year ->
      date_le next_year date2 = true ->
      next_year_of next_year = Ok next_year' ->
      year_after next_year next_year' /\
      (0 <= date_sub_days date2 next_year < date_sub_days date2 date1)%Z) /\
  (forall a b : date,
      (forall (k : nat) (cursor : date),
          years_after k (earlier a b) cursor ->
          date_le cursor (later a b) = true ->
          exists next, next_year_of cursor = Ok next) ->
      exists t, years_apart a b = Ok t).
Proof.
  split; [|split].
  - intros date2 date1 num_years next_year. eexists.
    split; [reflexivity|]. split; [apply years_loop_runs|].
    intros r' H. eapply while_loop_deterministic; [exact H|].
    apply years_loop_runs.
  - intros date2 date1 next_year next_year' Hinv Hle Hn.
    split; [now apply next_year_of_after|].
    apply date_le_toordinal in Hle. apply year_after_toordinal in Hinv.
    unfold date_sub_days. lia.
  - intros a b Hdef. rewrite years_apart_sorted.
    destruct (Hdef 0%nat (earlier a b)) as (next_year & Hn).
    { repeat split. simpl. lia. }
    { apply earlier_le_later. }
    rewrite Hn. cbn [bind].
    destruct (years_loop_defined (earlier a b) (later a b) Hdef next_year)
      with (cursor := earlier a b) (num_years := 0) as ([cursor total] & Hl).
    { exists 1%nat. apply next_year_of_after in Hn. exact Hn. }
    rewrite Hl. cbn [bind]. eexists. reflexivity.
Qed.

Lemma years_loop_terminates_witness :
  (year_after date_2005_01_01 (mkdate 2006 1 1 eq_refl) /\
   (0 <= date_sub_days date_2005_01_02 date_2005_01_01
    < date_sub_days date_2005_01_02 date_2004_01_01)%Z) /\
  exists t, years_apart date_2004_01_01 date_2005_01_02 = Ok t.
Proof.
  destruct years_loop_terminates as (_ & step & returns). split.
  - apply (step date_2005_01_02 date_2004_01_01 date_2005_01_01);
      [repeat split|reflexivity|reflexivity].
  - apply returns. intros k cursor (Ky & Km & Kd) Hle.
    apply next_year_of_defined.
    + apply date_le_year in Hle.
      change (year (later date_2004_01_01 date_2005_01_02)) with 2005%Z in Hle.
      lia.
    + change (month (earlier date_2004_01_01 date_2005_01_02)) with 1%Z in Km.
      lia.
Defined.

(** ** C4, C5: the look-ahead date of a 29 February *)

(** C4.  2004-02-29 and 2008-02-29 are two dates exactly four calendar years
    apart, and [years_apart] raises [ValueError] on them instead of
    returning 4: the look-ahead [date(2005, 2, 29)] is not a date. *)
Theorem years_apart_leap_day_four_years :
  years_after 4 date_2004_02_29 date_2008_02_29 /\
  years_apart date_2004_02_29 date_2008_02_29 = Raise ValueError.
Proof.
  split; [repeat split|].
  now apply years_apart_leap_day.
Qed.

(** C5.  On the valid dates 2004-02-29 and 2004-03-01 [years_apart] raises
    [ValueError], in either argument order. *)
Theorem years_apart_leap_day_raises :
  years_apart date_2004_02_29 date_2004_03_01 = Raise ValueError /\
  years_apart date_2004_03_01 date_2004_02_29 = Raise ValueError.
Proof.
  split; now apply years_apart_leap_day.
Qed.

(** * Further properties of the five functions *)

(** ** More on the loop and the value of [years_apart] *)

Lemma toordinal_inj (a b : date) : toordinal a = toordinal b -> a = b.
Proof.
  intros H. apply date_cmp_Eq.
  destruct (date_cmp a b) eqn:C; [reflexivity| |].
  - apply date_cmp_Lt_toordinal in C. lia.
  - pose proof (date_cmp_antisym a b) as A. rewrite C in A. simpl in A.
    apply date_cmp_Lt_toordinal in A. lia.
Qed.

(** Dates with the same month and day are ordered as their years are. *)
Lemma same_day_le (a b : date) :
  month a = month b -> day a = day b -> (year a <= year b)%Z ->
  date_le a b = true.
Proof.
  intros Hm Hd Hy. unfold date_le, date_cmp.
  destruct (year a ?= year b)%Z eqn:C; try reflexivity.
  - now rewrite Hm, Hd, !Z.compare_refl.
  - rewrite Z.compare_gt_iff in C. lia.
Qed.

(** The whole record of a returning loop: the counter, the cursor, the days
    the cursor has moved, and the look-ahead date that ended the loop. *)
Lemma years_loop_record (date2 date1 : date) (num_years : R)
  (next_year cursor : date) (total : R) :
  year_after date1 next_year ->
  date_le date1 date2 = true ->
  years_loop date2 date1 num_years next_year = Ok (cursor, total) ->
  exists k : nat,
    total = num_years + INR k /\
    years_after k date1 cursor /\
    (365 * Z.of_nat k <= toordinal cursor - toordinal date1
     <= 366 * Z.of_nat k)%Z /\
    date_le cursor date2 = true /\
    exists next, year_after cursor next /\ date_le next date2 = false.
Proof.
  revert date1 num_years.
  induction next_year as [next_year IH] using (years_loop_ind date2).
  intros date1 num_years Hinv Hcur. rewrite years_loop_eq.
  destruct (date_le next_year date2) eqn:Hle.
  - destruct (next_year_of next_year) as [next_year'|e] eqn:Hn; cbn [bind];
      [|discriminate].
    intros H.
    destruct (IH next_year' eq_refl eq_refl next_year (num_years + 1)
                (next_year_of_after _ _ Hn) Hle H)
      as (k & Ht & (Hy & Hm & Hd) & Hord & Hc & Hx).
    pose proof (year_after_toordinal _ _ Hinv) as Hstep.
    destruct Hinv as (Iy & Im & Id).
    exists (S k). rewrite S_INR. repeat split; try congruence; try lia.
    rewrite Ht. lra.
  - intros H. injection H as <- <-. exists 0%nat. cbn [INR].
    repeat split; try lra; try lia; try assumption.
    exists next_year. split; assumption.
Qed.

Lemma years_apart_record (a b : date) (t : R) :
  years_apart a b = Ok t ->
  exists (k : nat) (cursor next : date),
    t = INR k + IZR (date_sub_days (later a b) cursor) / 365 /\
    years_after k (earlier a b) cursor /\
    (365 * Z.of_nat k <= toordinal cursor - toordinal (earlier a b)
     <= 366 * Z.of_nat k)%Z /\
    date_le cursor (later a b) = true /\
    year_after cursor next /\ date_le next (later a b) = false.
Proof.
  rewrite years_apart_sorted.
  destruct (next_year_of (earlier a b)) as [next_year|e] eqn:Hn; cbn [bind];
    [|discriminate].
  destruct (years_loop (later a b) (earlier a b) 0 next_year)
    as [[cursor total]|e] eqn:Hl; cbn [bind]; [|discriminate].
  intros H. injection H as <-.
  apply years_loop_record in Hl;
    [|now apply next_year_of_after|apply earlier_le_later].
  destruct Hl as (k & Ht & Hk & Hord & Hc & next & Hnext & Hx).
  exists k, cursor, next. repeat split; try assumption; try lia.
  - rewrite Ht. lra.
  - apply Hk.
  - apply Hk.
  - apply Hk.
  - apply Hnext.
  - apply Hnext.
  - apply Hnext.
Qed.

Lemma date_le_fields (a b : date) :
  date_le a b = true <->
  (year a < year b \/
   (year a = year b /\
    (month a < month b \/ (month a = month b /\ day a <= day b))))%Z.
Proof.
  unfold date_le, date_cmp.
  destruct (year a ?= year b)%Z eqn:Cy.
  - apply Z.compare_eq in Cy.
    destruct (month a ?= month b)%Z eqn:Cm.
    + apply Z.compare_eq in Cm.
      destruct (day a ?= day b)%Z eqn:Cd.
      * apply Z.compare_eq in Cd. split; [lia|reflexivity].
      * rewrite Z.compare_lt_iff in Cd. split; [lia|reflexivity].
      * rewrite Z.compare_gt_iff in Cd. split; [discriminate|lia].
    + rewrite Z.compare_lt_iff in Cm. split; [lia|reflexivity].
    + rewrite Z.compare_gt_iff in Cm. split; [discriminate|lia].
  - rewrite Z.compare_lt_iff in Cy. split; [lia|reflexivity].
  - rewrite Z.compare_gt_iff in Cy. split; [discriminate|lia].
Qed.

Lemma date_le_false_fields (a b : date) :
  date_le a b = false <->
  (year b < year a \/
   (year a = year b /\
    (month b < month a \/ (month a = month b /\ day b < day a))))%Z.
Proof.
  pose proof (date_le_fields a b) as H.
  destruct (date_le a b); split; intros G; try discriminate; try reflexivity.
  - exfalso. destruct H as [H _]. specialize (H eq_refl). lia.
  - assert (false = true -> False) as N by discriminate.
    rewrite H in N. lia.
Qed.

Lemma month_day_lt_spec (x y : date) :
  month_day_lt x y = true <->
  (month x < month y \/ (month x = month y /\ day x < day y))%Z.
Proof.
  unfold month_day_lt.
  rewrite orb_true_iff, andb_true_iff, !Z.ltb_lt, Z.eqb_eq. tauto.
Qed.

Lemma month_day_lt_false (x y : date) :
  month_day_lt x y = false <->
  (month y < month x \/ (month x = month y /\ day y <= day x))%Z.
Proof.
  pose proof (month_day_lt_spec x y) as H.
  destruct (month_day_lt x y); split; intros G; try discriminate;
    try reflexivity.
  - exfalso. destruct H as [H _]. specialize (H eq_refl). lia.
  - assert (false = true -> False) as N by discriminate.
    rewrite H in N. lia.
Qed.

Lemma date_new_raises_ValueError (y m d : Z) (e : exn) :
  date_new y m d = Raise e -> e = ValueError.
Proof.
  destruct (check_date_fields y m d) eqn:C.
  - destruct (date_new_checked y m d C) as (a & ->). discriminate.
  - rewrite (date_new_raises y m d C). congruence.
Qed.

Lemma years_loop_raises_ValueError (date2 date1 : date) (num_years : R)
  (next_year : date) (e : exn) :
  years_loop date2 date1 num_years next_year = Raise e -> e = ValueError.
Proof.
  revert date1 num_years.
  induction next_year as [next_year IH] using (years_loop_ind date2).
  intros date1 num_years. rewrite years_loop_eq.
  destruct (date_le next_year date2) eqn:Hle; [|discriminate].
  destruct (next_year_of next_year) as [next_year'|e'] eqn:Hn; cbn [bind].
  - apply (IH next_year' eq_refl eq_refl).
  - intros H. injection H as <-.
    eapply date_new_raises_ValueError. exact Hn.
Qed.

Lemma years_apart_swap (a b : date) : years_apart a b = years_apart b a.
Proof.
  rewrite !years_apart_sorted.
  destruct (earlier_later_swap a b) as [-> ->]. reflexivity.
Qed.

Lemma earlier_later_sorted (a b : date) :
  date_le a b = true -> earlier a b = a /\ later a b = b.
Proof.
  intros H. unfold earlier, later. rewrite date_gt_le, H. auto.
Qed.

Lemma years_apart_defined (a b : date) :
  (forall (k : nat) (cursor : date),
      years_after k (earlier a b) cursor ->
      date_le cursor (later a b) = true ->
      exists next, next_year_of cursor = Ok next) ->
  exists t, years_apart a b = Ok t.
Proof.
  intros Hdef. rewrite years_apart_sorted.
  destruct (Hdef 0%nat (earlier a b)) as (next_year & Hn).
  { repeat split. simpl. lia. }
  { apply earlier_le_later. }
  rewrite Hn. cbn [bind].
  destruct (years_loop_defined (earlier a b) (later a b) Hdef next_year)
    with (cursor := earlier a b) (num_years := 0) as ([cursor total] & Hl).
  { exists 1%nat. apply next_year_of_after in Hn. exact Hn. }
  rewrite Hl. cbn [bind]. eexists. reflexivity.
Qed.

(** ** X1, X3-X6: the value and the domain of [years_apart] *)

(** X1.  [years_apart] returns a value exactly when the earlier date is not a
    29 February and the later date is before the year 9999 or falls earlier
    in its year than the earlier date does in its own; every exception it
    raises is a [ValueError]. *)
Theorem years_apart_domain (a b : date) :
  ((exists t, years_apart a b = Ok t) <->
   ~ (month (earlier a b) = 2 /\ day (earlier a b) = 29)%Z /\
   ((year (later a b) < 9999)%Z \/
    month_day_lt (later a b) (earlier a b) = true)) /\
  (forall e, years_apart a b = Raise e -> e = ValueError).
Proof.
  split; [split|].
  - intros (t & Ht). split.
    + intros (Hm & Hd). rewrite (years_apart_leap_day a b Hm Hd) in Ht.
      discriminate.
    + apply years_apart_record in Ht.
      destruct Ht as (k & cursor & next & _ & (Ky & Km & Kd) & _ & Hc
                      & (Ny & Nm & Nd) & Hx).
      destruct (date_fields next) as (Yn & _).
      destruct (date_fields (later a b)) as (Yl & _).
      apply date_le_false_fields in Hx.
      destruct (month_day_lt (later a b) (earlier a b)) eqn:M;
        [now right|left].
      apply month_day_lt_false in M. lia.
  - intros (Hleap & Hlast). apply years_apart_defined.
    intros k cursor (Ky & Km & Kd) Hle. apply next_year_of_defined.
    + apply date_le_fields in Hle.
      destruct (date_fields (later a b)) as (Yl & _).
      destruct Hlast as [Hlast|Hlast]; [lia|].
      apply month_day_lt_spec in Hlast. lia.
    + now rewrite Km, Kd.
  - intros e. rewrite years_apart_sorted.
    destruct (next_year_of (earlier a b)) as [next_year|e'] eqn:Hn;
      cbn [bind].
    + destruct (years_loop (later a b) (earlier a b) 0 next_year)
        as [[cursor total]|e'] eqn:Hl; cbn [bind]; [discriminate|].
      intros H. injection H as <-.
      eapply years_loop_raises_ValueError. exact Hl.
    + intros H. injection H as <-.
      eapply date_new_raises_ValueError. exact Hn.
Qed.

Lemma years_apart_domain_witness :
  exists t, years_apart date_2019_07_01 date_2019_04_01 = Ok t.
Proof.
  apply (proj1 (years_apart_domain date_2019_07_01 date_2019_04_01)).
  split.
  - intros (Hm & _). discriminate Hm.
  - left. reflexivity.
Defined.

Lemma years_apart_zero_iff_same (a b : date) (t : R) :
  years_apart a b = Ok t -> (t = 0 <-> a = b).
Proof.
  intros H. pose proof (earlier_le_later a b) as Hle.
  apply date_le_toordinal in Hle.
  assert (a = b <-> toordinal (later a b) = toordinal (earlier a b)) as ->.
  { unfold earlier, later. destruct (date_gt a b); split; intros E;
      solve [now subst | now apply toordinal_inj | symmetry; now apply toordinal_inj]. }
  pose proof (years_apart_record a b t H)
    as (k & cursor & next & Ht & _ & Hord & Hc & _).
  apply date_le_toordinal in Hc.
  assert (0 <= date_sub_days (later a b) cursor)%Z as Hrem
    by (unfold date_sub_days; lia).
  pose proof (IZR_le _ _ Hrem) as Hrem'. pose proof (pos_INR k) as Hk.
  split.
  - intros ->.
    assert (INR k = 0) as K0 by lra.
    assert (IZR (date_sub_days (later a b) cursor) = 0) as R0 by lra.
    change 0 with (INR 0) in K0. apply INR_eq in K0. subst k. apply eq_IZR in R0.
    unfold date_sub_days in R0. simpl in Hord. lia.
  - intros E.
    assert (k = 0)%nat as -> by lia.
    assert (date_sub_days (later a b) cursor = 0)%Z as R0
      by (unfold date_sub_days in *; simpl in Hord; lia).
    rewrite Ht, R0. cbn [INR]. lra.
Qed.

(** X3.  A returned year fraction is never negative, and it is 0 exactly
    when the two dates are the same date. *)
Theorem years_apart_zero_iff (a b : date) (t : R) :
  years_apart a b = Ok t -> 0 <= t /\ (t = 0 <-> a = b).
Proof.
  intros H. split.
  - eapply years_apart_nonneg. exact H.
  - now apply years_apart_zero_iff_same.
Qed.

Lemma years_apart_zero_iff_witness :
  0 <= 91 / 365 /\ (91 / 365 = 0 <-> date_2019_04_01 = date_2019_07_01).
Proof.
  apply years_apart_zero_iff. apply years_apart_2019.
Defined.

(** X4.  The year fraction from a date grows with the other date: for
    [a <= b <= b'], the fraction from [a] to [b] is at most the one from [a]
    to [b'], whenever both are returned. *)
Theorem years_apart_monotone (a b b' : date) (t t' : R) :
  date_le a b = true -> date_le b b' = true ->
  years_apart a b = Ok t -> years_apart a b' = Ok t' ->
  t <= t'.
Proof.
  intros Hab Hbb' Ht Ht'.
  assert (date_le a b' = true) as Hab'
    by (apply date_le_toordinal; apply date_le_toordinal in Hab, Hbb'; lia).
  apply years_apart_record in Ht, Ht'.
  destruct (earlier_later_sorted a b Hab) as [Ea La].
  destruct (earlier_later_sorted a b' Hab') as [Ea' La'].
  rewrite Ea, La in Ht. rewrite Ea', La' in Ht'.
  destruct Ht as (k & c & n & -> & (Ky & Km & Kd) & _ & Hc & Hcn & Hn).
  destruct Ht' as (k' & c' & n' & -> & (Ky' & Km' & Kd') & _ & Hc'
                   & (Ny & Nm & Nd) & Hn').
  apply date_le_toordinal in Hab, Hbb', Hc, Hc'.
  assert (~ (toordinal n' <= toordinal b')%Z) as Hmax
    by (rewrite <- date_le_toordinal; congruence).
  assert (k <= k')%nat as Hk.
  { destruct (Nat.le_gt_cases k k') as [|Hgt]; [assumption|exfalso].
    apply Hmax. assert (date_le n' c = true) as Hnc
      by (apply same_day_le; lia || congruence).
    apply date_le_toordinal in Hnc. lia. }
  assert (0 <= date_sub_days b' c')%Z as Hrem'
    by (unfold date_sub_days; lia).
  apply IZR_le in Hrem'.
  destruct (Nat.eq_dec k k') as [<-|Hne].
  - assert (c' = c) as -> by (apply date_ext; congruence).
    assert (date_sub_days b c <= date_sub_days b' c)%Z as Hd
      by (unfold date_sub_days; lia).
    apply IZR_le in Hd. lra.
  - assert (S k <= k')%nat as Hs by lia.
    apply le_INR in Hs. rewrite S_INR in Hs.
    assert (date_sub_days b c <= 365)%Z as Hd.
    { apply year_after_toordinal in Hcn.
      assert (~ (toordinal n <= toordinal b)%Z) as Hnb
        by (rewrite <- date_le_toordinal; congruence).
      unfold date_sub_days. lia. }
    apply IZR_le in Hd. lra.
Qed.

Example years_apart_2004_2005 :
  years_apart date_2004_01_01 date_2005_01_01 = Ok 1.
Proof.
  assert (years_apart date_2004_01_01 date_2005_01_01
          = Ok (0 + 1 + IZR 0 / 365)) as -> by reflexivity.
  f_equal. lra.
Qed.

Example years_apart_2004_2005_next_day :
  years_apart date_2004_01_01 date_2005_01_02 = Ok (1 + 1 / 365).
Proof.
  assert (years_apart date_2004_01_01 date_2005_01_02
          = Ok (0 + 1 + IZR 1 / 365)) as -> by reflexivity.
  f_equal. lra.
Qed.

Lemma years_apart_monotone_witness : 1 <= 1 + 1 / 365.
Proof.
  apply (years_apart_monotone
           date_2004_01_01 date_2005_01_01 date_2005_01_02);
    [reflexivity|reflexivity|
     apply years_apart_2004_2005|apply years_apart_2004_2005_next_day].
Defined.

(** X5.  The whole-year part of a returned year fraction is the number of
    completed calendar years between the dates (the difference of the
    years, less one when the later date falls earlier in its year), and the
    rest is the days from that anniversary of the earlier date to the later
    date, over 365. *)
Theorem years_apart_completed_years (a b : date) (t : R) :
  years_apart a b = Ok t ->
  (0 <= completed_years (earlier a b) (later a b))%Z /\
  t = IZR (completed_years (earlier a b) (later a b))
      + IZR (toordinal (later a b)
             - ymd2ord (year (earlier a b)
                        + completed_years (earlier a b) (later a b))
                 (month (earlier a b)) (day (earlier a b))) / 365.
Proof.
  intros H. apply years_apart_record in H.
  destruct H as (k & cursor & next & -> & (Ky & Km & Kd) & _ & Hc
                 & (Ny & Nm & Nd) & Hx).
  apply date_le_fields in Hc. apply date_le_false_fields in Hx.
  assert (completed_years (earlier a b) (later a b) = Z.of_nat k) as ->.
  { unfold completed_years.
    destruct (month_day_lt (later a b) (earlier a b)) eqn:M.
    - apply month_day_lt_spec in M. lia.
    - apply month_day_lt_false in M. lia. }
  split; [lia|].
  rewrite <- INR_IZR_INZ, <- Ky, <- Km, <- Kd. reflexivity.
Qed.

Lemma years_apart_completed_years_witness :
  (0 <= completed_years (earlier date_2019_07_01 date_2019_04_01)
          (later date_2019_07_01 date_2019_04_01))%Z /\
  91 / 365 =
  IZR (completed_years (earlier date_2019_07_01 date_2019_04_01)
         (later date_2019_07_01 date_2019_04_01))
  + IZR (toordinal (later date_2019_07_01 date_2019_04_01)
         - ymd2ord (year (earlier date_2019_07_01 date_2019_04_01)
                    + completed_years
                        (earlier date_2019_07_01 date_2019_04_01)
                        (later date_2019_07_01 date_2019_04_01))
             (month (earlier date_2019_07_01 date_2019_04_01))
             (day (earlier date_2019_07_01 date_2019_04_01))) / 365.
Proof.
  apply years_apart_completed_years. apply years_apart_reversed.
Defined.

(** X6.  Off 29 February and below the year 9999, two dates with the same
    month and day and [n] years between them are exactly [n] years apart,
    in either argument order. *)
Theorem years_apart_anniversary (n : nat) (a b : date) :
  years_after n a b ->
  (year b < 9999)%Z -> ~ (month a = 2 /\ day a = 29)%Z ->
  years_apart a b = Ok (INR n) /\ years_apart b a = Ok (INR n).
Proof.
  intros Hn Hmax Hleap.
  assert (years_apart a b = Ok (INR n)) as H
    by now apply years_apart_whole_years.
  split; [assumption|]. now rewrite years_apart_swap.
Qed.

Lemma years_apart_anniversary_witness :
  years_apart date_1959_05_03 date_1960_05_03 = Ok (INR 1) /\
  years_apart date_1960_05_03 date_1959_05_03 = Ok (INR 1).
Proof.
  apply years_apart_anniversary.
  - repeat split.
  - reflexivity.
  - intros (Hm & _). discriminate Hm.
Defined.

(** ** X13: the pricer *)

(** X13.  The pricer does not tell the expiration date from the valuation
    date: with the two dates exchanged it gives the same outcome, so an
    option that expired before the valuation date is priced as one that
    expires as long after it. *)
Theorem fx_option_price_dates_exchanged (norm_cdf : R -> R) (call : bool)
  (strike : R) (expiration spot_date : date)
  (spot volatility domestic_rate foreign_rate : R) :
  fx_option_price norm_cdf call strike spot_date expiration
    spot volatility domestic_rate foreign_rate =
  fx_option_price norm_cdf call strike expiration spot_date
    spot volatility domestic_rate foreign_rate.
Proof.
  unfold fx_option_price. now rewrite (years_apart_swap expiration spot_date).
Qed.

(** ** Further properties in binary64 *)

(** X8.  With a C library whose [exp] keeps the order and is 1 at 0, a
    discount factor for a rate and a term that are not negative never
    exceeds 1.0. *)
Theorem discount_at_most_one
  (rd : Binary64.rounding) (lm : Binary64.libm)
  (rate term : R) (f : Binary64.float) :
  Binary64.exp_monotone lm -> Binary64.exp_of_zero lm ->
  0 <= rate -> 0 <= term ->
  Binary64.discount rd lm (Binary64.Finite rate) (Binary64.Finite term)
  = Ok f ->
  Binary64.fle f (Binary64.Finite 1).
Proof.
  intros Hmono Hzero Hr Ht H. unfold Binary64.discount in H.
  apply math_exp_returns in H. subst f. rewrite <- Hzero.
  apply Hmono. cbn [Binary64.fneg Binary64.fmul].
  rewrite <- (Binary64.round_id rd 0 Binary64.binary64_0).
  apply Binary64.round_monotone. nra.
Qed.

Lemma discount_at_most_one_witness :
  Binary64.fle
    (Binary64.Finite (Binary64.rnd Binary64.nearest_rounding
                        (exp (- (1 / 2) * 2))))
    (Binary64.Finite 1).
Proof.
  apply (discount_at_most_one Binary64.nearest_rounding
           (Binary64.rounded_libm Binary64.nearest_rounding) (1 / 2) 2).
  - apply Binary64.rounded_libm_exp_monotone.
  - apply Binary64.rounded_libm_exp_of_zero.
  - lra.
  - lra.
  - apply Binary64.discount_rounded_libm.
    + replace (- (1 / 2) * 2) with (IZR (-1)) by lra.
      apply Binary64.binary64_integer. reflexivity.
    + pose proof Binary64.overflow_threshold_large as T.
      rewrite Binary64.pow2_53 in T.
      assert (exp (- (1 / 2) * 2) < exp 0) by (apply exp_increasing; lra).
      rewrite exp_0 in *. lra.
Defined.

(** X10.  For a binary64 term and a volatility that are not negative and a
    finite [d1], [fx_option_d2] returns a value that is at most [d1]: in
    binary64 it can equal [d1] although the volatility and the term are
    positive.  For a negative term it raises [ValueError]. *)
Theorem fx_option_d2_at_most_d1
  (rd : Binary64.rounding) (term volatility d1 : R) :
  Binary64.binary64 d1 ->
  (Binary64.binary64 term -> 0 <= term -> 0 <= volatility ->
   exists d2,
     Binary64.fx_option_d2 rd (Binary64.Finite term)
       (Binary64.Finite volatility) (Binary64.Finite d1) = Ok d2 /\
     Binary64.fle d2 (Binary64.Finite d1)) /\
  (term < 0 ->
   Binary64.fx_option_d2 rd (Binary64.Finite term)
     (Binary64.Finite volatility) (Binary64.Finite d1) = Raise ValueError).
Proof.
  intros Fd. split.
  - intros Ft Ht Hv. unfold Binary64.fx_option_d2, Binary64.math_sqrt.
    rewrite (Binary64.fsqrt_finite rd term Ft Ht).
    cbn [Binary64.is_nan Binary64.is_inf andb bind].
    eexists. split; [reflexivity|].
    assert (0 <= Binary64.rnd rd (sqrt term)) as Hs.
    { rewrite <- (Binary64.rnd_id rd 0 Binary64.binary64_0).
      apply Binary64.rnd_monotone, sqrt_pos. }
    cbn [Binary64.fmul].
    destruct (Binary64.round_nonneg_cases rd
                (volatility * Binary64.rnd rd (sqrt term)))
      as [(p & -> & Hp & _)| ->]; [nra| |exact I].
    unfold Binary64.fsub. cbn [Binary64.fneg Binary64.fadd].
    rewrite <- (Binary64.round_id rd d1 Fd).
    apply Binary64.round_monotone. lra.
  - intros Ht. unfold Binary64.fx_option_d2, Binary64.math_sqrt.
    unfold Binary64.fsqrt. destruct (Rle_dec 0 term); [lra|]. reflexivity.
Qed.

Lemma fx_option_d2_at_most_d1_witness :
  exists d2,
    Binary64.fx_option_d2 Binary64.nearest_rounding (Binary64.Finite 4)
      (Binary64.Finite 1) (Binary64.Finite 8) = Ok d2 /\
    Binary64.fle d2 (Binary64.Finite 8).
Proof.
  apply (fx_option_d2_at_most_d1 Binary64.nearest_rounding 4 1 8).
  - apply (Binary64.binary64_integer 8). reflexivity.
  - apply (Binary64.binary64_integer 4). reflexivity.
  - lra.
  - lra.
Defined.
